(** * Delimiters of the dissect processor

    A shallow embedding of [libbeat/processors/dissect/delimiter.go] and the
    properties of its three delimiter kinds ([zeroByte], [fixedLengthByte],
    [multiByte]), of the factory [newDelimiter] and of the chain links.

    Go values are modelled as follows.
    - [int] is the 64-bit signed integer of the usual platforms: a [Z] in
      [min_int .. max_int], with the wrap-around of [+] written out.
    - [string] is a sequence of bytes: Rocq's [string] (a list of 8-bit
      characters), indexed from 0, of length at most [max_int].
    - A [delimiter] interface value is [nil] or a pointer to a struct on the
      heap; the heap is a finite map from addresses to structs, so that two
      references to one node see each other's updates.
    - A run-time panic (slice bounds, nil dereference) is an outcome of its
      own; every method is a computation over the heap that returns a value
      and the heap it leaves, or panics. *)

From Stdlib Require Import ZArith Lia DecimalString.
From stdpp Require Import gmap strings list.

Local Open Scope Z_scope.

(** ** The built-in type [int] *)

Module int.

Definition bits : Z := 64.
Definition min_int : Z := - 2 ^ (bits - 1).
Definition max_int : Z := 2 ^ (bits - 1) - 1.

Definition in_range (z : Z) : Prop := min_int <= z <= max_int.

(** Two's complement wrap-around of a mathematical integer. *)
Definition wrap (z : Z) : Z := (z - min_int) mod 2 ^ bits + min_int.

(** [a + b] on [int]. *)
Definition add (a b : Z) : Z := wrap (a + b).

(** [%d] of [fmt.Sprintf]: decimal digits, with a leading [-] below zero. *)
Definition format (z : Z) : string := NilZero.string_of_int (Z.to_int z).

End int.

(** ** Strings: [len], slicing and the package [strings] *)

(** [len(s)] *)
Definition len (s : string) : Z := Z.of_nat (String.length s).

(** The bytes of [s] from index [n] on. *)
Fixpoint drop_bytes (n : nat) (s : string) : string :=
  match n, s with
  | O, _ => s
  | S _, EmptyString => EmptyString
  | S n', String _ s' => drop_bytes n' s'
  end.

Module strings.

(** [strings.HasPrefix(s, prefix)] *)
Fixpoint HasPrefix (s prefix : string) {struct prefix} : bool :=
  match prefix, s with
  | EmptyString, _ => true
  | String _ _, EmptyString => false
  | String c prefix', String d s' =>
      if Ascii.eqb c d then HasPrefix s' prefix' else false
  end.

(** The search loop of [strings.Index]: [s] is what is left of the
    haystack and [i] the index of its first byte. *)
Fixpoint index_from (s substr : string) (i : Z) : Z :=
  if HasPrefix s substr then i
  else match s with
       | EmptyString => -1
       | String _ s' => index_from s' substr (i + 1)
       end.

(** [strings.Index(s, substr)]: the index of the first instance of
    [substr] in [s], or -1 if [substr] is not present in [s]. *)
Definition Index (s substr : string) : Z := index_from s substr 0.

End strings.

(** ** The heap and its computations *)

Abbreviation loc := positive.

(** A value of the interface type [delimiter]: [None] is [nil]. *)
Definition delimiter : Type := option loc.

Module dissect.

Record baseDelimiter : Type := {
  needle : string;
  length : Z;
  greedy : bool;
  next : delimiter
}.

(** The zero value of the struct. *)
Definition zero : baseDelimiter :=
  {| needle := EmptyString; length := 0; greedy := false; next := None |}.

(** The three struct types, each embedding a [baseDelimiter]. *)
Inductive node : Type :=
| zeroByte (b : baseDelimiter)
| fixedLengthByte (b : baseDelimiter)
| multiByte (b : baseDelimiter).

Inductive kind : Type := ZeroByte | FixedLengthByte | MultiByte.

#[global] Instance kind_eq_dec : EqDecision kind.
Proof. solve_decision. Defined.

Definition kind_of (o : node) : kind :=
  match o with
  | zeroByte _ => ZeroByte
  | fixedLengthByte _ => FixedLengthByte
  | multiByte _ => MultiByte
  end.

(** The embedded struct, and the same node around another one. *)
Definition embedded (o : node) : baseDelimiter :=
  match o with zeroByte b | fixedLengthByte b | multiByte b => b end.

Definition with_embedded (o : node) (b : baseDelimiter) : node :=
  match o with
  | zeroByte _ => zeroByte b
  | fixedLengthByte _ => fixedLengthByte b
  | multiByte _ => multiByte b
  end.

Inductive panic : Type :=
| NilDereference
| SliceBoundsOutOfRange
| InvalidAddress.

Inductive result (A : Type) : Type :=
| Ok (a : A) (h : gmap loc node)
| Panicked (p : panic).
Arguments Ok {A} a h.
Arguments Panicked {A} p.

Definition M (A : Type) : Type := gmap loc node -> result A.

Definition ret {A} (a : A) : M A := fun h => Ok a h.

Definition bind {A B} (c : M A) (k : A -> M B) : M B :=
  fun h => match c h with
           | Ok a h' => k a h'
           | Panicked p => Panicked p
           end.

Definition throw {A} (p : panic) : M A := fun _ => Panicked p.

Declare Scope go_scope.
Delimit Scope go_scope with go.
Notation "x <- c ;; k" := (bind c (fun x => k))
  (at level 100, c at next level, right associativity) : go_scope.
Notation "c ;;; k" := (bind c (fun _ => k))
  (at level 100, right associativity) : go_scope.
Local Open Scope go_scope.

(** [*p] for a pointer that is not nil. Go has no dangling pointers;
    an address outside the heap is a failure of its own. *)
Definition load (p : loc) : M node :=
  fun h => match h !! p with
           | Some o => Ok o h
           | None => Panicked InvalidAddress
           end.

Definition store (p : loc) (o : node) : M unit :=
  fun h => match h !! p with
           | Some _ => Ok tt (<[p := o]> h)
           | None => Panicked InvalidAddress
           end.

(** [&T{...}]: a new struct at an address not in use. *)
Definition alloc (o : node) : M loc :=
  fun h => let p := fresh (dom h) in Ok p (<[p := o]> h).

(** The receiver of a method call through the interface. *)
Definition receiver (d : delimiter) : M loc :=
  match d with
  | Some p => ret p
  | None => throw NilDereference
  end.

(** [haystack[offset:]] *)
Definition slice_from (haystack : string) (offset : Z) : M string :=
  if (offset <? 0) || (len haystack <? offset)
  then throw SliceBoundsOutOfRange
  else ret (drop_bytes (Z.to_nat offset) haystack).

(** *** Methods of [*baseDelimiter] *)

Definition baseDelimiter_IndexOf (b : loc) (haystack : string) (offset : Z) : M Z :=
  o <- load b ;;
  ret (int.add offset (length (embedded o))).

Definition baseDelimiter_Len (b : loc) : M Z :=
  o <- load b ;;
  ret (length (embedded o)).

Definition baseDelimiter_Delimiter (b : loc) : M string :=
  o <- load b ;;
  ret (needle (embedded o)).

Definition baseDelimiter_IsGreedy (b : loc) : M bool :=
  o <- load b ;;
  ret (greedy (embedded o)).

Definition baseDelimiter_MarkGreedy (b : loc) : M unit :=
  o <- load b ;;
  let e := embedded o in
  store b (with_embedded o
    {| needle := needle e; length := length e; greedy := true; next := next e |}).

Definition baseDelimiter_Next (b : loc) : M delimiter :=
  o <- load b ;;
  ret (next (embedded o)).

Definition baseDelimiter_SetNext (b : loc) (d : delimiter) : M unit :=
  o <- load b ;;
  let e := embedded o in
  store b (with_embedded o
    {| needle := needle e; length := length e; greedy := greedy e; next := d |}).

(** *** Methods of [*zeroByte] and [*fixedLengthByte] *)

Definition zeroByte_String (z : loc) : M string :=
  ret "delimiter: zerobyte"%string.

Definition fixedLengthByte_String (f : loc) : M string :=
  o <- load f ;;
  ret ("delimiter: fixedlengthbyte (len: "
       +:+ int.format (length (embedded o)) +:+ ")")%string.

(** *** Methods of [*multiByte] *)

Definition multiByte_IndexOf (m : loc) (haystack : string) (offset : Z) : M Z :=
  s <- slice_from haystack offset ;;
  o <- load m ;;
  let i := strings.Index s (needle (embedded o)) in
  if negb (i =? -1) then ret (int.add i offset)
  else ret (-1).

Definition multiByte_Len (m : loc) : M Z :=
  o <- load m ;;
  ret (len (needle (embedded o))).

Definition multiByte_String (m : loc) : M string :=
  o <- load m ;;
  n <- multiByte_Len m ;;
  ret ("delimiter: multibyte (match: '" +:+ needle (embedded o)
       +:+ "', len: " +:+ int.format n +:+ ")")%string.

(** *** The interface [delimiter]: dynamic dispatch on the struct type.
    A method that a struct does not declare is the promoted one of the
    embedded [baseDelimiter]. *)

Definition IndexOf (d : delimiter) (haystack : string) (offset : Z) : M Z :=
  p <- receiver d ;;
  o <- load p ;;
  match o with
  | multiByte _ => multiByte_IndexOf p haystack offset
  | zeroByte _ | fixedLengthByte _ => baseDelimiter_IndexOf p haystack offset
  end.

Definition Len (d : delimiter) : M Z :=
  p <- receiver d ;;
  o <- load p ;;
  match o with
  | multiByte _ => multiByte_Len p
  | zeroByte _ | fixedLengthByte _ => baseDelimiter_Len p
  end.

Definition String (d : delimiter) : M string :=
  p <- receiver d ;;
  o <- load p ;;
  match o with
  | zeroByte _ => zeroByte_String p
  | fixedLengthByte _ => fixedLengthByte_String p
  | multiByte _ => multiByte_String p
  end.

Definition Delimiter (d : delimiter) : M string :=
  p <- receiver d ;; baseDelimiter_Delimiter p.

Definition IsGreedy (d : delimiter) : M bool :=
  p <- receiver d ;; baseDelimiter_IsGreedy p.

Definition MarkGreedy (d : delimiter) : M unit :=
  p <- receiver d ;; baseDelimiter_MarkGreedy p.

Definition Next (d : delimiter) : M delimiter :=
  p <- receiver d ;; baseDelimiter_Next p.

Definition SetNext (d n : delimiter) : M unit :=
  p <- receiver d ;; baseDelimiter_SetNext p n.

(** *** The factory *)

Definition newDelimiter (needle : string) : M delimiter :=
  if len needle =? 0 then
    p <- alloc (zeroByte zero) ;;
    ret (Some p)
  else
    p <- alloc (multiByte {| needle := needle; length := 0;
                             greedy := false; next := None |}) ;;
    ret (Some p).

(** *** What a driver can do with delimiters

    The factory, the composite literal [&fixedLengthByte{b}] (the file has
    no constructor for this kind) and the eight methods of the interface. *)

Inductive call : Type :=
| NewDelimiter (needle : string)
| NewFixedLengthByte (b : baseDelimiter)
| CallIndexOf (d : delimiter) (haystack : string) (offset : Z)
| CallLen (d : delimiter)
| CallString (d : delimiter)
| CallDelimiter (d : delimiter)
| CallIsGreedy (d : delimiter)
| CallMarkGreedy (d : delimiter)
| CallNext (d : delimiter)
| CallSetNext (d n : delimiter).

(** The heap a computation leaves, when it returns. *)
Definition heap_after {A} (r : result A) : option (gmap loc node) :=
  match r with
  | Ok _ h => Some h
  | Panicked _ => None
  end.

Definition value_of {A} (r : result A) : option A :=
  match r with
  | Ok a _ => Some a
  | Panicked _ => None
  end.

Definition run (c : call) (h : gmap loc node) : option (gmap loc node) :=
  match c with
  | NewDelimiter s => heap_after (newDelimiter s h)
  | NewFixedLengthByte b => heap_after (alloc (fixedLengthByte b) h)
  | CallIndexOf d s o => heap_after (IndexOf d s o h)
  | CallLen d => heap_after (Len d h)
  | CallString d => heap_after (String d h)
  | CallDelimiter d => heap_after (Delimiter d h)
  | CallIsGreedy d => heap_after (IsGreedy d h)
  | CallMarkGreedy d => heap_after (MarkGreedy d h)
  | CallNext d => heap_after (Next d h)
  | CallSetNext d n => heap_after (SetNext d n h)
  end.

(** A sequence of calls; a panic ends the program. *)
Fixpoint runs (cs : list call) (h : gmap loc node) : option (gmap loc node) :=
  match cs with
  | [] => Some h
  | c :: cs' =>
      match run c h with
      | Some h' => runs cs' h'
      | None => None
      end
  end.

(** [MarkGreedy] called [n] times in a row. *)
Fixpoint MarkGreedy_times (n : nat) (d : delimiter) : M unit :=
  match n with
  | O => ret tt
  | S n' => MarkGreedy d ;;; MarkGreedy_times n' d
  end.

(** The driver's walk along a chain,
    [for d := first; d != nil; d = d.Next() { visit(d) }],
    with a bound on the number of iterations: [None] when the bound is
    reached before [nil] is, or on a panic. *)
Fixpoint walk (fuel : nat) (d : delimiter) (h : gmap loc node) : option (list loc) :=
  match d with
  | None => Some []
  | Some p =>
      match fuel with
      | O => None
      | S fuel' =>
          match Next (Some p) h with
          | Ok n _ => cons p <$> walk fuel' n h
          | Panicked _ => None
          end
      end
  end.

End dissect.

(** ** The vocabulary of the properties *)

(** [H[i..i+len(N)) == N]: the needle [N] occurs in [H] at index [i]. *)
Definition occurs_at (N H : string) (i : Z) : Prop :=
  0 <= i /\ i + len N <= len H /\
  String.substring (Z.to_nat i) (String.length N) H = N.

(** An offset that [IndexOf] may be given. *)
Definition valid_offset (H : string) (o : Z) : Prop := 0 <= o <= len H.

(** A Go string: its length is an [int]. *)
Definition go_string (H : string) : Prop := len H <= int.max_int.

(** A reference to a node of the heap. *)
Definition allocated (h : gmap loc dissect.node) (d : delimiter) : Prop :=
  exists p o, d = Some p /\ h !! p = Some o.

(** An anchor: a [zeroByte] whose [length] field is zero, as the factory
    builds it. *)
Definition anchor (h : gmap loc dissect.node) (d : delimiter) : Prop :=
  exists p b, d = Some p /\ h !! p = Some (dissect.zeroByte b) /\
              dissect.length b = 0.

(** A fixed-length delimiter of width [L]. *)
Definition fixed_length (h : gmap loc dissect.node) (d : delimiter) (L : Z) : Prop :=
  exists p b, d = Some p /\ h !! p = Some (dissect.fixedLengthByte b) /\
              dissect.length b = L.

(** What a node keeps for life: its struct type, its needle and its
    [length] field are never assigned after construction, and the greedy
    flag is only ever set. [later o o'] relates a node to a later state of
    the same node. *)
Definition later (o o' : dissect.node) : Prop :=
  dissect.kind_of o' = dissect.kind_of o /\
  dissect.needle (dissect.embedded o') = dissect.needle (dissect.embedded o) /\
  dissect.length (dissect.embedded o') = dissect.length (dissect.embedded o) /\
  (dissect.greedy (dissect.embedded o) = true ->
   dissect.greedy (dissect.embedded o') = true).

(** The node after [b.greedy = true] and after [b.next = d]. *)
Definition marked (o : dissect.node) : dissect.node :=
  let e := dissect.embedded o in
  dissect.with_embedded o
    {| dissect.needle := dissect.needle e; dissect.length := dissect.length e;
       dissect.greedy := true; dissect.next := dissect.next e |}.

Definition linked (o : dissect.node) (d : delimiter) : dissect.node :=
  let e := dissect.embedded o in
  dissect.with_embedded o
    {| dissect.needle := dissect.needle e; dissect.length := dissect.length e;
       dissect.greedy := dissect.greedy e; dissect.next := d |}.


(** ** The driver's side of a chain *)

(** The calls that link the nodes of a list, each to the one after it:
    [l[0].SetNext(l[1]); l[1].SetNext(l[2]); ...]. *)
Fixpoint links (l : list loc) : list dissect.call :=
  match l with
  | a :: (b :: _) as rest =>
      dissect.CallSetNext (Some a) (Some b) :: links rest
  | _ => []
  end.

(** The nodes of [l] are in the heap, each with the one after it as [next],
    the last with nil. *)
Fixpoint chain_in (h : gmap loc dissect.node) (l : list loc) : Prop :=
  match l with
  | [] => True
  | a :: rest =>
      (exists n, h !! a = Some n /\
                 dissect.next (dissect.embedded n) = head rest) /\
      chain_in h rest
  end.

(** The first node of a list, as an interface value; nil for no node. *)
Definition first_of (l : list loc) : delimiter := head l.

(** An index found in a suffix, as an index of the whole haystack; the
    sentinel is left as it is. *)
Definition shift_index (by_ : Z) (i : Z) : Z :=
  if i =? -1 then -1 else by_ + i.

(** The calls that construct a node, as opposed to the eight methods. *)
Definition constructs (c : dissect.call) : bool :=
  match c with
  | dissect.NewDelimiter _ | dissect.NewFixedLengthByte _ => true
  | _ => false
  end.

(** The two methods that assign a field, called on the node at [p]. *)
Definition writes_to (p : loc) (c : dissect.call) : bool :=
  match c with
  | dissect.CallMarkGreedy (Some q) | dissect.CallSetNext (Some q) _ =>
      bool_decide (q = p)
  | _ => false
  end.

(** What one call makes of the node at [p]: [MarkGreedy] and [SetNext] on
    that node assign one field, every other call leaves it. *)
Definition effect_on (p : loc) (c : dissect.call) (n : dissect.node) : dissect.node :=
  match c with
  | dissect.CallMarkGreedy (Some q) => if decide (q = p) then marked n else n
  | dissect.CallSetNext (Some q) m => if decide (q = p) then linked n m else n
  | _ => n
  end.

(** [SetNext] called on the node at [p]. *)
Definition sets_next (p : loc) (c : dissect.call) : bool :=
  match c with
  | dissect.CallSetNext (Some q) _ => bool_decide (q = p)
  | _ => false
  end.

(** ** Proof steps

    [unfold_methods] exposes the heap accesses of a method call and
    [eval_method] runs them on a receiver known to be allocated;
    [by_receiver] shows that a call that returns had such a receiver. *)

Ltac unfold_methods :=
  unfold dissect.IndexOf, dissect.Len, dissect.String, dissect.Delimiter,
    dissect.IsGreedy, dissect.MarkGreedy, dissect.Next, dissect.SetNext,
    dissect.multiByte_IndexOf, dissect.multiByte_String, dissect.multiByte_Len,
    dissect.zeroByte_String, dissect.fixedLengthByte_String,
    dissect.baseDelimiter_IndexOf, dissect.baseDelimiter_Len,
    dissect.baseDelimiter_Delimiter, dissect.baseDelimiter_IsGreedy,
    dissect.baseDelimiter_MarkGreedy, dissect.baseDelimiter_Next,
    dissect.baseDelimiter_SetNext, dissect.slice_from,
    dissect.receiver, dissect.bind, dissect.load, dissect.store,
    dissect.ret, dissect.throw.

Ltac eval_method Hp :=
  unfold_methods; simpl; rewrite ?Hp; simpl; rewrite ?Hp; simpl;
  try reflexivity.

Ltac by_receiver d h :=
  let p := fresh "p" in
  let o := fresh "o" in
  let Hp := fresh "Hp" in
  destruct d as [p|];
  [destruct (h !! p) as [o|] eqn:Hp;
   [exists p, o; split; [reflexivity|assumption]
   |unfold_methods; simpl; rewrite ?Hp; simpl; discriminate]
  |unfold_methods; simpl; discriminate].

(** ** Arithmetic of [int] *)

Lemma wrap_in_range z : int.in_range z -> int.wrap z = z.
Proof.
  unfold int.in_range, int.wrap, int.min_int, int.max_int, int.bits.
  intros Hz. rewrite Z.mod_small; lia.
Qed.

Lemma wrap_overflow z :
  int.max_int < z <= 2 * int.max_int -> int.wrap z = z - 2 ^ int.bits.
Proof.
  unfold int.wrap, int.min_int, int.max_int, int.bits. intros Hz.
  replace (z - - 2 ^ (64 - 1)) with ((z - 2 ^ 63) + 1 * 2 ^ 64) by lia.
  rewrite Z.mod_add by lia. rewrite Z.mod_small; lia.
Qed.

Lemma add_exact a b : int.in_range (a + b) -> int.add a b = a + b.
Proof. apply wrap_in_range. Qed.

(** ** Strings: prefixes, suffixes and the search *)

Lemma length_drop_bytes n s :
  String.length (drop_bytes n s) = (String.length s - n)%nat.
Proof.
  revert s; induction n as [|n IH]; intros [|c s]; simpl; auto with lia.
Qed.

Lemma drop_bytes_add n k s :
  drop_bytes k (drop_bytes n s) = drop_bytes (n + k) s.
Proof.
  revert s; induction n as [|n IH]; intros s; simpl; [done|].
  destruct s as [|c s]; [by destruct k|apply IH].
Qed.

Lemma substring_drop_bytes n m s :
  String.substring n m s = String.substring 0 m (drop_bytes n s).
Proof.
  revert s; induction n as [|n IH]; intros s; [done|].
  destruct s as [|c s]; simpl; [by destruct m|apply IH].
Qed.

Lemma HasPrefix_true_iff s p :
  strings.HasPrefix s p = true <->
  (String.length p <= String.length s)%nat /\
  String.substring 0 (String.length p) s = p.
Proof.
  revert s; induction p as [|c p IH]; intros s; simpl.
  - split; [intros _|done]. split; [lia|by destruct s].
  - destruct s as [|d s]; simpl.
    + split; [done|intros [Hle _]; lia].
    + destruct (Ascii.eqb_spec c d) as [->|Hcd].
      * rewrite IH. split.
        -- intros [Hle Heq]. split; [lia|by rewrite Heq].
        -- intros [Hle Heq]. split; [lia|congruence].
      * split; [done|intros [_ Heq]; congruence].
Qed.

(** An occurrence at [i] is a prefix of the suffix from [i]. *)
Lemma occurs_at_HasPrefix N H i :
  0 <= i <= len H ->
  occurs_at N H i <-> strings.HasPrefix (drop_bytes (Z.to_nat i) H) N = true.
Proof.
  unfold occurs_at, len. intros Hi.
  rewrite HasPrefix_true_iff, length_drop_bytes, <- substring_drop_bytes.
  split.
  - intros (_ & Hle & Heq). split; [lia|done].
  - intros [Hle Heq]. split; [lia|]. split; [lia|done].
Qed.

(** The loop of [strings.Index] stops at the first suffix that starts with
    the needle, and returns -1 when there is none. *)
Lemma index_from_spec s p i :
  0 <= i ->
  (exists k : nat,
      (k <= String.length s)%nat /\
      strings.index_from s p i = i + Z.of_nat k /\
      strings.HasPrefix (drop_bytes k s) p = true /\
      forall j : nat, (j < k)%nat -> strings.HasPrefix (drop_bytes j s) p = false)
  \/
  (strings.index_from s p i = -1 /\
   forall j : nat, (j <= String.length s)%nat ->
                   strings.HasPrefix (drop_bytes j s) p = false).
Proof.
  revert i; induction s as [|c s IH]; intros i Hi; simpl.
  - destruct (strings.HasPrefix "" p) eqn:Hp.
    + left. exists 0%nat. repeat split; [lia|lia|done|intros; lia].
    + right. split; [done|]. intros j Hj. by destruct j.
  - destruct (strings.HasPrefix (String c s) p) eqn:Hp.
    + left. exists 0%nat. repeat split; [lia|lia|done|intros; lia].
    + destruct (IH (i + 1)) as [(k & Hk & Hidx & Hpre & Hmin)|[Hidx Hno]]; [lia|..].
      * left. exists (S k). repeat split; [lia|lia|done|].
        intros [|j] Hj; [done|]. apply Hmin. lia.
      * right. split; [done|]. intros [|j] Hj; [done|]. apply Hno. lia.
Qed.

(** ** The methods on an allocated node *)

Lemma IndexOf_base (h : gmap loc dissect.node) p o haystack offset :
  h !! p = Some o ->
  dissect.kind_of o <> dissect.MultiByte ->
  dissect.IndexOf (Some p) haystack offset h =
  dissect.Ok (int.add offset (dissect.length (dissect.embedded o))) h.
Proof. intros Hp Hk. destruct o; eval_method Hp. by destruct Hk. Qed.

Lemma IndexOf_multi (h : gmap loc dissect.node) p o haystack offset :
  h !! p = Some o ->
  dissect.kind_of o = dissect.MultiByte ->
  dissect.IndexOf (Some p) haystack offset h =
  if (offset <? 0) || (len haystack <? offset)
  then dissect.Panicked dissect.SliceBoundsOutOfRange
  else
    let i := strings.Index (drop_bytes (Z.to_nat offset) haystack)
                           (dissect.needle (dissect.embedded o)) in
    dissect.Ok (if negb (i =? -1) then int.add i offset else -1) h.
Proof.
  intros Hp Hk. destruct o; try discriminate Hk.
  unfold_methods. rewrite Hp. simpl.
  destruct ((offset <? 0) || (len haystack <? offset)); [done|].
  rewrite Hp. simpl. by destruct (negb _).
Qed.

Lemma Len_eq (h : gmap loc dissect.node) p o :
  h !! p = Some o ->
  dissect.Len (Some p) h =
  dissect.Ok (match o with
              | dissect.multiByte b => len (dissect.needle b)
              | dissect.zeroByte b | dissect.fixedLengthByte b => dissect.length b
              end) h.
Proof. intros Hp. destruct o; eval_method Hp. Qed.

Lemma String_returns (h : gmap loc dissect.node) p o :
  h !! p = Some o -> exists s, dissect.String (Some p) h = dissect.Ok s h.
Proof.
  intros Hp. unfold_methods. rewrite Hp.
  destruct o; simpl; repeat (rewrite Hp; simpl); eauto.
Qed.

Lemma Delimiter_eq (h : gmap loc dissect.node) p o :
  h !! p = Some o ->
  dissect.Delimiter (Some p) h =
  dissect.Ok (dissect.needle (dissect.embedded o)) h.
Proof. intros Hp. eval_method Hp. Qed.

Lemma IsGreedy_eq (h : gmap loc dissect.node) p o :
  h !! p = Some o ->
  dissect.IsGreedy (Some p) h =
  dissect.Ok (dissect.greedy (dissect.embedded o)) h.
Proof. intros Hp. eval_method Hp. Qed.

Lemma Next_eq (h : gmap loc dissect.node) p o :
  h !! p = Some o ->
  dissect.Next (Some p) h = dissect.Ok (dissect.next (dissect.embedded o)) h.
Proof. intros Hp. eval_method Hp. Qed.

Lemma MarkGreedy_eq (h : gmap loc dissect.node) p o :
  h !! p = Some o ->
  dissect.MarkGreedy (Some p) h = dissect.Ok tt (<[p := marked o]> h).
Proof. intros Hp. eval_method Hp. Qed.

Lemma SetNext_eq (h : gmap loc dissect.node) p o d :
  h !! p = Some o ->
  dissect.SetNext (Some p) d h = dissect.Ok tt (<[p := linked o d]> h).
Proof. intros Hp. eval_method Hp. Qed.

Lemma later_refl o : later o o.
Proof. by repeat split. Qed.

Lemma later_trans o1 o2 o3 : later o1 o2 -> later o2 o3 -> later o1 o3.
Proof.
  intros (Hk1 & Hn1 & Hl1 & Hg1) (Hk2 & Hn2 & Hl2 & Hg2).
  repeat split; try congruence. auto.
Qed.

Lemma later_marked o : later o (marked o).
Proof. by destruct o. Qed.

Lemma later_linked o d : later o (linked o d).
Proof. by destruct o. Qed.

(** ** Calls that return

    A method that returns was called on an allocated node: a nil receiver
    and an address outside the heap both panic. *)

Lemma IndexOf_allocated d haystack offset h v h' :
  dissect.IndexOf d haystack offset h = dissect.Ok v h' -> allocated h d.
Proof. unfold allocated. by_receiver d h. Qed.

Lemma Len_allocated d h v h' :
  dissect.Len d h = dissect.Ok v h' -> allocated h d.
Proof. unfold allocated. by_receiver d h. Qed.

Lemma String_allocated d h v h' :
  dissect.String d h = dissect.Ok v h' -> allocated h d.
Proof. unfold allocated. by_receiver d h. Qed.

Lemma Delimiter_allocated d h v h' :
  dissect.Delimiter d h = dissect.Ok v h' -> allocated h d.
Proof. unfold allocated. by_receiver d h. Qed.

Lemma IsGreedy_allocated d h v h' :
  dissect.IsGreedy d h = dissect.Ok v h' -> allocated h d.
Proof. unfold allocated. by_receiver d h. Qed.

Lemma MarkGreedy_allocated d h v h' :
  dissect.MarkGreedy d h = dissect.Ok v h' -> allocated h d.
Proof. unfold allocated. by_receiver d h. Qed.

Lemma Next_allocated d h v h' :
  dissect.Next d h = dissect.Ok v h' -> allocated h d.
Proof. unfold allocated. by_receiver d h. Qed.

Lemma SetNext_allocated d n h v h' :
  dissect.SetNext d n h = dissect.Ok v h' -> allocated h d.
Proof. unfold allocated. by_receiver d h. Qed.

(** The observers return in the heap they were called in. *)

Lemma IndexOf_heap d haystack offset h v h' :
  dissect.IndexOf d haystack offset h = dissect.Ok v h' -> h' = h.
Proof.
  intros Hcall. destruct (IndexOf_allocated _ _ _ _ _ _ Hcall) as (p & o & -> & Hp).
  destruct (decide (dissect.kind_of o = dissect.MultiByte)) as [Hk|Hk].
  - rewrite (IndexOf_multi _ _ _ _ _ Hp Hk) in Hcall.
    destruct (_ || _); [discriminate|]. by injection Hcall.
  - rewrite (IndexOf_base _ _ _ _ _ Hp Hk) in Hcall. by injection Hcall.
Qed.

Lemma Len_heap d h v h' : dissect.Len d h = dissect.Ok v h' -> h' = h.
Proof.
  intros Hcall. destruct (Len_allocated _ _ _ _ Hcall) as (p & o & -> & Hp).
  rewrite (Len_eq _ _ _ Hp) in Hcall. by injection Hcall.
Qed.

Lemma String_heap d h v h' : dissect.String d h = dissect.Ok v h' -> h' = h.
Proof.
  intros Hcall. destruct (String_allocated _ _ _ _ Hcall) as (p & o & -> & Hp).
  destruct (String_returns _ _ _ Hp) as [s Hs].
  rewrite Hs in Hcall. by injection Hcall.
Qed.

Lemma Delimiter_heap d h v h' : dissect.Delimiter d h = dissect.Ok v h' -> h' = h.
Proof.
  intros Hcall. destruct (Delimiter_allocated _ _ _ _ Hcall) as (p & o & -> & Hp).
  rewrite (Delimiter_eq _ _ _ Hp) in Hcall. by injection Hcall.
Qed.

Lemma IsGreedy_heap d h v h' : dissect.IsGreedy d h = dissect.Ok v h' -> h' = h.
Proof.
  intros Hcall. destruct (IsGreedy_allocated _ _ _ _ Hcall) as (p & o & -> & Hp).
  rewrite (IsGreedy_eq _ _ _ Hp) in Hcall. by injection Hcall.
Qed.

Lemma Next_heap d h v h' : dissect.Next d h = dissect.Ok v h' -> h' = h.
Proof.
  intros Hcall. destruct (Next_allocated _ _ _ _ Hcall) as (p & o & -> & Hp).
  rewrite (Next_eq _ _ _ Hp) in Hcall. by injection Hcall.
Qed.

(** ** Allocation and the factory *)

Lemma alloc_eq o (h : gmap loc dissect.node) :
  dissect.alloc o h = dissect.Ok (fresh (dom h)) (<[fresh (dom h) := o]> h).
Proof. reflexivity. Qed.

Lemma fresh_unused (h : gmap loc dissect.node) : h !! fresh (dom h) = None.
Proof. apply not_elem_of_dom, is_fresh. Qed.

Lemma newDelimiter_eq s (h : gmap loc dissect.node) :
  dissect.newDelimiter s h =
  let p := fresh (dom h) in
  dissect.Ok (Some p)
    (<[p := if len s =? 0 then dissect.zeroByte dissect.zero
            else dissect.multiByte
                   {| dissect.needle := s; dissect.length := 0;
                      dissect.greedy := false; dissect.next := None |}]> h).
Proof. unfold dissect.newDelimiter. by destruct (len s =? 0). Qed.

Lemma len_zero s : len s = 0 <-> s = ""%string.
Proof. unfold len. destruct s; simpl; split; intros; [done|done|lia|done]. Qed.

(** ** One call, and many

    A call leaves the heap as it is, adds a node at an unused address, or
    replaces a node by a later state of it. *)

Lemma run_cases c (h h' : gmap loc dissect.node) :
  dissect.run c h = Some h' ->
  h' = h \/
  (exists o, h !! fresh (dom h) = None /\ h' = <[fresh (dom h) := o]> h) \/
  (exists p o o', h !! p = Some o /\ later o o' /\ h' = <[p := o']> h).
Proof.
  destruct c as [s|b|d s off|d|d|d|d|d|d|d n]; simpl.
  - rewrite newDelimiter_eq. simpl. intros [= <-].
    right; left. eexists. split; [apply fresh_unused|done].
  - intros [= <-]. right; left. eexists. split; [apply fresh_unused|done].
  - destruct (dissect.IndexOf d s off h) eqn:Hc; [|done].
    intros [= <-]. left. eapply IndexOf_heap, Hc.
  - destruct (dissect.Len d h) eqn:Hc; [|done].
    intros [= <-]. left. eapply Len_heap, Hc.
  - destruct (dissect.String d h) eqn:Hc; [|done].
    intros [= <-]. left. eapply String_heap, Hc.
  - destruct (dissect.Delimiter d h) eqn:Hc; [|done].
    intros [= <-]. left. eapply Delimiter_heap, Hc.
  - destruct (dissect.IsGreedy d h) eqn:Hc; [|done].
    intros [= <-]. left. eapply IsGreedy_heap, Hc.
  - destruct (dissect.MarkGreedy d h) eqn:Hc; [|done].
    intros [= <-]. right; right.
    destruct (MarkGreedy_allocated _ _ _ _ Hc) as (p & o & -> & Hp).
    rewrite (MarkGreedy_eq _ _ _ Hp) in Hc. injection Hc as <-.
    exists p, o, (marked o). eauto using later_marked.
  - destruct (dissect.Next d h) eqn:Hc; [|done].
    intros [= <-]. left. eapply Next_heap, Hc.
  - destruct (dissect.SetNext d n h) eqn:Hc; [|done].
    intros [= <-]. right; right.
    destruct (SetNext_allocated _ _ _ _ _ Hc) as (p & o & -> & Hp).
    rewrite (SetNext_eq _ _ _ n Hp) in Hc. injection Hc as <-.
    exists p, o, (linked o n). eauto using later_linked.
Qed.

Lemma run_later c (h h' : gmap loc dissect.node) p o :
  dissect.run c h = Some h' ->
  h !! p = Some o ->
  exists o', h' !! p = Some o' /\ later o o'.
Proof.
  intros Hrun Hp.
  destruct (run_cases _ _ _ Hrun)
    as [->|[(o1 & Hfresh & ->)|(q & o1 & o2 & Hq & Hlater & ->)]].
  - eauto using later_refl.
  - exists o. split; [|apply later_refl].
    rewrite lookup_insert_ne; [done|congruence].
  - destruct (decide (q = p)) as [->|Hne].
    + exists o2. rewrite lookup_insert_eq. split; [done|congruence].
    + exists o. rewrite lookup_insert_ne by done. eauto using later_refl.
Qed.

Lemma runs_later cs (h h' : gmap loc dissect.node) p o :
  dissect.runs cs h = Some h' ->
  h !! p = Some o ->
  exists o', h' !! p = Some o' /\ later o o'.
Proof.
  revert h o; induction cs as [|c cs IH]; intros h o; simpl.
  - intros [= <-] Hp. eauto using later_refl.
  - destruct (dissect.run c h) as [h1|] eqn:Hrun; [|done].
    intros Hruns Hp.
    destruct (run_later _ _ _ _ _ Hrun Hp) as (o1 & Hp1 & Hl1).
    destruct (IH _ _ Hruns Hp1) as (o2 & Hp2 & Hl2).
    eauto using later_trans.
Qed.

(** ** The substring delimiter *)

(** What [strings.Index] finds in the suffix from [o], read as occurrences
    in the whole haystack. *)
Lemma Index_suffix_spec N H o :
  valid_offset H o ->
  let r := strings.Index (drop_bytes (Z.to_nat o) H) N in
  (0 <= r /\ o + r <= len H /\ occurs_at N H (o + r) /\
   forall j, o <= j < o + r -> ~ occurs_at N H j)
  \/
  (r = -1 /\ forall j, o <= j -> ~ occurs_at N H j).
Proof.
  intros Ho r. unfold valid_offset in Ho.
  assert (Hlen : Z.of_nat (String.length (drop_bytes (Z.to_nat o) H)) = len H - o).
  { rewrite length_drop_bytes. unfold len in *. lia. }
  assert (Hsuf : forall k : nat,
    o + Z.of_nat k <= len H ->
    strings.HasPrefix (drop_bytes k (drop_bytes (Z.to_nat o) H)) N = true <->
    occurs_at N H (o + Z.of_nat k)).
  { intros k Hk. rewrite drop_bytes_add, occurs_at_HasPrefix by lia.
    by replace (Z.to_nat (o + Z.of_nat k)) with (Z.to_nat o + k)%nat by lia. }
  destruct (index_from_spec (drop_bytes (Z.to_nat o) H) N 0)
    as [(k & Hk & Hidx & Hpre & Hmin)|[Hidx Hno]]; [lia|..].
  - left. fold (strings.Index (drop_bytes (Z.to_nat o) H) N) in Hidx.
    fold r in Hidx. rewrite Hidx.
    split; [lia|]. split; [lia|]. split.
    + apply Hsuf; [lia|done].
    + intros j Hj Hocc.
      replace j with (o + Z.of_nat (Z.to_nat (j - o))) in Hocc by lia.
      apply Hsuf in Hocc; [|lia].
      rewrite Hmin in Hocc; [done|lia].
  - right. split; [done|]. intros j Hj Hocc.
    assert (j <= len H) by (destruct Hocc as (_ & Hb & _); unfold len in *; lia).
    replace j with (o + Z.of_nat (Z.to_nat (j - o))) in Hocc by lia.
    apply Hsuf in Hocc; [|lia].
    rewrite Hno in Hocc; [done|lia].
Qed.

(** C1. For a substring delimiter with needle [N], a haystack [H] and an
    offset [0 <= o <= len(H)]: if [N] occurs in [H] at some index at or
    after [o], [IndexOf] returns the smallest index [i >= o] with
    [H[i..i+len(N)) == N]; otherwise it returns -1. (The needle of a
    [multiByte] from the factory is not empty; the statement holds for the
    empty needle as well, which occurs at [o].) *)
Theorem multiByte_IndexOf_first_occurrence
    (h : gmap loc dissect.node) p b H o :
  h !! p = Some (dissect.multiByte b) ->
  go_string H ->
  valid_offset H o ->
  ((exists i, o <= i /\ occurs_at (dissect.needle b) H i) ->
   exists i, dissect.IndexOf (Some p) H o h = dissect.Ok i h /\
             o <= i /\ occurs_at (dissect.needle b) H i /\
             forall j, o <= j < i -> ~ occurs_at (dissect.needle b) H j)
  /\
  (~ (exists i, o <= i /\ occurs_at (dissect.needle b) H i) ->
   dissect.IndexOf (Some p) H o h = dissect.Ok (-1) h).
Proof.
  intros Hp HH Ho.
  rewrite (IndexOf_multi _ _ _ H o Hp eq_refl). simpl.
  assert ((o <? 0) || (len H <? o) = false) as ->.
  { unfold valid_offset in Ho. apply orb_false_iff. lia. }
  destruct (Index_suffix_spec (dissect.needle b) H o Ho)
    as [(Hr & Hle & Hocc & Hmin)|[Hr Hno]].
  - set (r := strings.Index _ _) in *.
    assert (negb (r =? -1) = true) as -> by (apply negb_true_iff; lia).
    assert (int.add r o = o + r) as ->.
    { rewrite add_exact; [lia|].
      unfold go_string, valid_offset, int.in_range in *.
      unfold int.min_int, int.max_int, int.bits in *. lia. }
    split.
    + intros _. exists (o + r). split; [done|]. split; [lia|]. by split.
    + intros Hnone. destruct Hnone. exists (o + r). split; [lia|done].
  - rewrite Hr. simpl. split; [|done].
    intros (i & Hi & Hocc). by destruct (Hno i Hi).
Qed.

Lemma multiByte_IndexOf_first_occurrence_witness :
  let b := {| dissect.needle := "-"; dissect.length := 0;
              dissect.greedy := false; dissect.next := None |} in
  let h : gmap loc dissect.node := {[ 1%positive := dissect.multiByte b ]} in
  ((exists i, 5 <= i /\ occurs_at "-" "2021-01-01" i) ->
   exists i, dissect.IndexOf (Some 1%positive) "2021-01-01" 5 h = dissect.Ok i h /\
             5 <= i /\ occurs_at "-" "2021-01-01" i /\
             forall j, 5 <= j < i -> ~ occurs_at "-" "2021-01-01" j)
  /\
  (~ (exists i, 5 <= i /\ occurs_at "-" "2021-01-01" i) ->
   dissect.IndexOf (Some 1%positive) "2021-01-01" 5 h = dissect.Ok (-1) h).
Proof.
  intros b h.
  apply (multiByte_IndexOf_first_occurrence h 1%positive b "2021-01-01" 5).
  - reflexivity.
  - unfold go_string. vm_compute. discriminate.
  - unfold valid_offset. vm_compute. split; discriminate.
Defined.

(** The scenarios of the specification. *)
Example IndexOf_date :
  dissect.value_of
    (dissect.bind (dissect.newDelimiter "-")
       (fun d => dissect.IndexOf d "2021-01-01" 0) ∅) = Some 4.
Proof. reflexivity. Qed.

Example Len_date :
  dissect.value_of
    (dissect.bind (dissect.newDelimiter "-") dissect.Len ∅) = Some 1.
Proof. reflexivity. Qed.

Example IndexOf_absent :
  dissect.value_of
    (dissect.bind (dissect.newDelimiter "XX")
       (fun d => dissect.IndexOf d "abc" 0) ∅) = Some (-1).
Proof. reflexivity. Qed.

Example IndexOf_anchor :
  dissect.value_of
    (dissect.bind (dissect.newDelimiter "")
       (fun d => dissect.IndexOf d "hello" 2) ∅) = Some 2.
Proof. reflexivity. Qed.

(** ** The anchor and the fixed-length delimiter *)

Lemma offset_in_range H o : go_string H -> valid_offset H o -> int.in_range o.
Proof.
  unfold go_string, valid_offset, int.in_range.
  unfold int.min_int, int.max_int, int.bits. lia.
Qed.

(** The factory's answer to the empty literal is an anchor, and stays one. *)
Lemma newDelimiter_anchor (h h1 h2 : gmap loc dissect.node) d cs :
  dissect.newDelimiter "" h = dissect.Ok d h1 ->
  dissect.runs cs h1 = Some h2 ->
  anchor h2 d.
Proof.
  rewrite newDelimiter_eq. simpl. intros [= <- <-] Hruns.
  edestruct runs_later as (n & Hn & Hk & _ & Hlen & _);
    [exact Hruns|apply lookup_insert_eq|].
  destruct n as [b|b|b]; try discriminate Hk.
  exists (fresh (dom h)), b. eauto.
Qed.

(** C2. For an anchor, every haystack [H] and every offset
    [0 <= o <= len(H)]: [IndexOf] returns [o] and [Len] returns 0. *)
Theorem anchor_IndexOf_Len (h : gmap loc dissect.node) d H o :
  anchor h d ->
  go_string H ->
  valid_offset H o ->
  dissect.IndexOf d H o h = dissect.Ok o h /\
  dissect.Len d h = dissect.Ok 0 h.
Proof.
  intros (p & b & -> & Hp & Hlen) HH Ho. split.
  - rewrite (IndexOf_base _ _ _ H o Hp) by done. simpl. rewrite Hlen.
    rewrite add_exact; rewrite Z.add_0_r; [done|].
    eauto using offset_in_range.
  - rewrite (Len_eq _ _ _ Hp). by rewrite Hlen.
Qed.

Lemma anchor_IndexOf_Len_witness :
  let h : gmap loc dissect.node := {[ 1%positive := dissect.zeroByte dissect.zero ]} in
  dissect.IndexOf (Some 1%positive) "hello" 2 h = dissect.Ok 2 h /\
  dissect.Len (Some 1%positive) h = dissect.Ok 0 h.
Proof.
  intros h. apply (anchor_IndexOf_Len h (Some 1%positive) "hello" 2).
  - exists 1%positive, dissect.zero. repeat split; reflexivity.
  - unfold go_string. vm_compute. discriminate.
  - unfold valid_offset. vm_compute. split; discriminate.
Defined.

(** C3. For a fixed-length delimiter of width [L], every haystack [H] and
    every offset [o] (in [0 .. len(H)] or not): [IndexOf] returns [o + L],
    the sum of the two [int]s, whatever [H] holds; no search is done. The
    sum is the one of Go: it is the mathematical [o + L] whenever that is an
    [int]. *)
Theorem fixedLengthByte_IndexOf_sum (h : gmap loc dissect.node) d L H o :
  fixed_length h d L ->
  dissect.IndexOf d H o h = dissect.Ok (int.add o L) h /\
  (forall H', dissect.IndexOf d H' o h = dissect.IndexOf d H o h) /\
  (int.in_range (o + L) -> dissect.IndexOf d H o h = dissect.Ok (o + L) h).
Proof.
  intros (p & b & -> & Hp & <-).
  assert (Heq : forall H', dissect.IndexOf (Some p) H' o h =
                           dissect.Ok (int.add o (dissect.length b)) h).
  { intros H'. by rewrite (IndexOf_base _ _ _ H' o Hp). }
  split; [apply Heq|]. split.
  - intros H'. by rewrite !Heq.
  - intros Hr. by rewrite Heq, add_exact.
Qed.

Lemma fixedLengthByte_IndexOf_sum_witness :
  let b := {| dissect.needle := ""; dissect.length := 3;
              dissect.greedy := false; dissect.next := None |} in
  let h : gmap loc dissect.node := {[ 1%positive := dissect.fixedLengthByte b ]} in
  dissect.IndexOf (Some 1%positive) "abcdef" 2 h = dissect.Ok (int.add 2 3) h /\
  (forall H', dissect.IndexOf (Some 1%positive) H' 2 h =
              dissect.IndexOf (Some 1%positive) "abcdef" 2 h) /\
  (int.in_range (2 + 3) ->
   dissect.IndexOf (Some 1%positive) "abcdef" 2 h = dissect.Ok (2 + 3) h).
Proof.
  intros b h.
  apply (fixedLengthByte_IndexOf_sum h (Some 1%positive) 3 "abcdef" 2).
  exists 1%positive, b. repeat split; reflexivity.
Defined.

(** The index may lie beyond the haystack: nothing is validated. *)
Example fixedLengthByte_beyond :
  dissect.value_of
    (dissect.bind
       (dissect.alloc (dissect.fixedLengthByte
          {| dissect.needle := ""; dissect.length := 10;
             dissect.greedy := false; dissect.next := None |}))
       (fun p => dissect.IndexOf (Some p) "abc" 1) ∅) = Some 11.
Proof. reflexivity. Qed.

(** ** The factory *)

(** C4. [newDelimiter] allocates one node and touches no other: for the
    empty literal a [zeroByte] with the zero value of every field, for any
    other literal [s] a [multiByte] with needle [s]. Two calls with the same
    literal, in whatever heaps, build equal nodes, which therefore answer
    [IndexOf] and [Len] alike. *)
Theorem newDelimiter_kind (s : string) :
  (forall h : gmap loc dissect.node,
      exists p,
        h !! p = None /\
        dissect.newDelimiter s h =
        dissect.Ok (Some p)
          (<[p := if decide (s = ""%string)
                  then dissect.zeroByte dissect.zero
                  else dissect.multiByte
                         {| dissect.needle := s; dissect.length := 0;
                            dissect.greedy := false; dissect.next := None |}]> h))
  /\
  (forall (h1 h2 h1' h2' : gmap loc dissect.node) d1 d2,
      dissect.newDelimiter s h1 = dissect.Ok d1 h1' ->
      dissect.newDelimiter s h2 = dissect.Ok d2 h2' ->
      (exists p1 p2 n,
          d1 = Some p1 /\ d2 = Some p2 /\
          h1' !! p1 = Some n /\ h2' !! p2 = Some n) /\
      (forall H o,
          dissect.value_of (dissect.IndexOf d1 H o h1') =
          dissect.value_of (dissect.IndexOf d2 H o h2')) /\
      dissect.value_of (dissect.Len d1 h1') =
      dissect.value_of (dissect.Len d2 h2')).
Proof.
  split.
  - intros h. exists (fresh (dom h)). split; [apply fresh_unused|].
    rewrite newDelimiter_eq. simpl. do 2 f_equal.
    destruct (decide (s = ""%string)) as [->|Hs]; [done|].
    destruct (len s =? 0) eqn:Hlen; [|done].
    apply Z.eqb_eq, len_zero in Hlen. done.
  - intros h1 h2 h1' h2' d1 d2. rewrite !newDelimiter_eq. simpl.
    intros [= <- <-] [= <- <-].
    set (n := if len s =? 0 then _ else _).
    assert (Hp1 : <[fresh (dom h1) := n]> h1 !! fresh (dom h1) = Some n)
      by apply lookup_insert_eq.
    assert (Hp2 : <[fresh (dom h2) := n]> h2 !! fresh (dom h2) = Some n)
      by apply lookup_insert_eq.
    split; [by eauto 10|]. split.
    + intros H o.
      destruct (decide (dissect.kind_of n = dissect.MultiByte)) as [Hk|Hk].
      * rewrite (IndexOf_multi _ _ _ H o Hp1 Hk), (IndexOf_multi _ _ _ H o Hp2 Hk).
        by destruct (_ || _).
      * by rewrite (IndexOf_base _ _ _ H o Hp1 Hk), (IndexOf_base _ _ _ H o Hp2 Hk).
    + by rewrite (Len_eq _ _ _ Hp1), (Len_eq _ _ _ Hp2).
Qed.

Lemma newDelimiter_kind_witness :
  exists p1 p2 n,
    Some 1%positive = Some p1 /\ Some 2%positive = Some p2 /\
    (<[1%positive := dissect.multiByte
         {| dissect.needle := ", "; dissect.length := 0;
            dissect.greedy := false; dissect.next := None |}]> ∅
      : gmap loc dissect.node) !! p1 = Some n /\
    (<[2%positive := dissect.multiByte
         {| dissect.needle := ", "; dissect.length := 0;
            dissect.greedy := false; dissect.next := None |}]>
       (<[1%positive := dissect.zeroByte dissect.zero]> ∅)
      : gmap loc dissect.node) !! p2 = Some n.
Proof.
  refine (proj1 (proj2 (newDelimiter_kind ", ")
                   ∅ (<[1%positive := dissect.zeroByte dissect.zero]> ∅)
                   _ _ (Some 1%positive) (Some 2%positive) _ _)).
  - reflexivity.
  - reflexivity.
Defined.

(** ** Which kind can answer -1 *)

(** The sum of two [int]s that are not negative is never -1, even when it
    wraps around. *)
Lemma add_nonneg_not_sentinel a b :
  0 <= a <= int.max_int -> 0 <= b <= int.max_int -> int.add a b <> -1.
Proof.
  intros Ha Hb. unfold int.add.
  destruct (Z_le_gt_dec (a + b) int.max_int) as [Hle|Hgt].
  - rewrite wrap_in_range; [lia|].
    unfold int.in_range, int.min_int, int.max_int, int.bits in *. lia.
  - rewrite wrap_overflow by lia.
    unfold int.max_int, int.bits in *. lia.
Qed.

(** At the largest offset a fixed-length delimiter of width 1 answers the
    smallest [int]. *)
Example fixedLengthByte_wraps :
  dissect.value_of
    (dissect.bind
       (dissect.alloc (dissect.fixedLengthByte
          {| dissect.needle := ""; dissect.length := 1;
             dissect.greedy := false; dissect.next := None |}))
       (fun p => dissect.IndexOf (Some p) "" 9223372036854775807) ∅)
  = Some (-9223372036854775808).
Proof. reflexivity. Qed.

(** C5 as stated does not hold: an offset that is not negative and a
    fixed-length delimiter of width 1 whose index is negative. *)
Lemma arithmetic_IndexOf_nonneg_fails :
  ~ (forall (h : gmap loc dissect.node) p n H o,
        h !! p = Some n ->
        dissect.kind_of n <> dissect.MultiByte ->
        0 <= dissect.length (dissect.embedded n) <= int.max_int ->
        0 <= o <= int.max_int ->
        exists i, dissect.IndexOf (Some p) H o h = dissect.Ok i h /\
                  0 <= i /\ i <> -1).
Proof.
  intros Hclaim.
  pose (b := {| dissect.needle := ""%string; dissect.length := 1;
                dissect.greedy := false; dissect.next := None |}).
  destruct (Hclaim {[ 1%positive := dissect.fixedLengthByte b ]} 1%positive
              (dissect.fixedLengthByte b) ""%string int.max_int)
    as (i & Hi & Hpos & _).
  - reflexivity.
  - discriminate.
  - vm_compute. split; discriminate.
  - vm_compute. split; discriminate.
  - vm_compute in Hi. injection Hi as <-. by apply Hpos.
Qed.

(** C5, amended. For every haystack and every offset [o >= 0], [IndexOf] of
    an anchor or of a fixed-length delimiter of width [L >= 0] returns, and
    what it returns is never -1. It is the index [o + L], not negative,
    whenever [o + L] is an [int]; beyond the largest [int] the sum wraps
    around to [o + L - 2^64], a negative index below -1. So only the
    substring kind answers -1. *)
Theorem arithmetic_IndexOf_never_sentinel (h : gmap loc dissect.node) p n H o :
  h !! p = Some n ->
  dissect.kind_of n <> dissect.MultiByte ->
  0 <= dissect.length (dissect.embedded n) <= int.max_int ->
  0 <= o <= int.max_int ->
  exists i, dissect.IndexOf (Some p) H o h = dissect.Ok i h /\
            i <> -1 /\
            (o + dissect.length (dissect.embedded n) <= int.max_int ->
             i = o + dissect.length (dissect.embedded n) /\ 0 <= i) /\
            (int.max_int < o + dissect.length (dissect.embedded n) ->
             i = o + dissect.length (dissect.embedded n) - 2 ^ int.bits /\
             i < -1).
Proof.
  intros Hp Hk HL Ho. eexists. split; [by apply IndexOf_base|].
  split; [by apply add_nonneg_not_sentinel|]. split.
  - intros Hsum. rewrite add_exact; [lia|].
    unfold int.in_range, int.min_int, int.max_int, int.bits in *. lia.
  - intros Hsum. unfold int.add. rewrite wrap_overflow by lia.
    split; [done|]. unfold int.max_int, int.bits in *. lia.
Qed.

Lemma arithmetic_IndexOf_never_sentinel_witness :
  let b3 := {| dissect.needle := ""; dissect.length := 3;
               dissect.greedy := false; dissect.next := None |} in
  let b1 := {| dissect.needle := ""; dissect.length := 1;
               dissect.greedy := false; dissect.next := None |} in
  let h : gmap loc dissect.node :=
    <[2%positive := dissect.fixedLengthByte b1]>
      (<[1%positive := dissect.fixedLengthByte b3]> ∅) in
  (exists i, dissect.IndexOf (Some 1%positive) "abcdef" 2 h = dissect.Ok i h /\
             i <> -1 /\
             (2 + 3 <= int.max_int -> i = 2 + 3 /\ 0 <= i) /\
             (int.max_int < 2 + 3 -> i = 2 + 3 - 2 ^ int.bits /\ i < -1))
  /\
  (exists i, dissect.IndexOf (Some 2%positive) "" int.max_int h = dissect.Ok i h /\
             i <> -1 /\
             (int.max_int + 1 <= int.max_int -> i = int.max_int + 1 /\ 0 <= i) /\
             (int.max_int < int.max_int + 1 ->
              i = int.max_int + 1 - 2 ^ int.bits /\ i < -1)).
Proof.
  intros b3 b1 h. split.
  - apply (arithmetic_IndexOf_never_sentinel h 1%positive
             (dissect.fixedLengthByte b3) "abcdef" 2).
    + reflexivity.
    + discriminate.
    + vm_compute. split; discriminate.
    + vm_compute. split; discriminate.
  - apply (arithmetic_IndexOf_never_sentinel h 2%positive
             (dissect.fixedLengthByte b1) "" int.max_int).
    + reflexivity.
    + discriminate.
    + vm_compute. split; discriminate.
    + vm_compute. split; discriminate.
Defined.

(** The two branches at work: an index within the [int]s, and the wrapped
    one. *)
Example arithmetic_IndexOf_in_range :
  dissect.value_of
    (dissect.bind
       (dissect.alloc (dissect.fixedLengthByte
          {| dissect.needle := ""; dissect.length := 3;
             dissect.greedy := false; dissect.next := None |}))
       (fun p => dissect.IndexOf (Some p) "abcdef" 2) ∅) = Some 5.
Proof. reflexivity. Qed.

Example arithmetic_IndexOf_wrapped :
  dissect.value_of
    (dissect.bind
       (dissect.alloc (dissect.fixedLengthByte
          {| dissect.needle := ""; dissect.length := 9223372036854775807;
             dissect.greedy := false; dissect.next := None |}))
       (fun p => dissect.IndexOf (Some p) "" 9223372036854775807) ∅)
  = Some (-2).
Proof. reflexivity. Qed.

(** ** Width *)

(** The node that the factory allocates, as later calls find it. *)
Lemma newDelimiter_runs s (h h1 h2 : gmap loc dissect.node) d cs :
  dissect.newDelimiter s h = dissect.Ok d h1 ->
  dissect.runs cs h1 = Some h2 ->
  exists p n,
    d = Some p /\ h2 !! p = Some n /\
    later (if len s =? 0 then dissect.zeroByte dissect.zero
           else dissect.multiByte
                  {| dissect.needle := s; dissect.length := 0;
                     dissect.greedy := false; dissect.next := None |}) n.
Proof.
  rewrite newDelimiter_eq. simpl. intros [= <- <-] Hruns.
  edestruct runs_later as (n & Hn & Hlater); [exact Hruns|apply lookup_insert_eq|].
  eauto.
Qed.

(** C6. [Len] of a substring delimiter is the byte length of the needle it
    holds. A delimiter that the factory built from the literal [s] keeps
    its kind and its needle whatever is called afterwards ([MarkGreedy],
    [SetNext] and all the other calls), so its [Len] stays [len(s)]; for the
    anchor that is 0. *)
Theorem Len_is_needle_length :
  (forall (h : gmap loc dissect.node) p b,
      h !! p = Some (dissect.multiByte b) ->
      dissect.Len (Some p) h = dissect.Ok (len (dissect.needle b)) h)
  /\
  (forall (h h1 h2 : gmap loc dissect.node) s d cs,
      dissect.newDelimiter s h = dissect.Ok d h1 ->
      dissect.runs cs h1 = Some h2 ->
      exists p n,
        d = Some p /\ h2 !! p = Some n /\
        dissect.kind_of n =
          (if decide (s = ""%string) then dissect.ZeroByte else dissect.MultiByte) /\
        dissect.needle (dissect.embedded n) = s /\
        dissect.Len d h2 = dissect.Ok (len s) h2 /\
        (dissect.kind_of n = dissect.ZeroByte ->
         dissect.Len d h2 = dissect.Ok 0 h2)).
Proof.
  split.
  - intros h p b Hp. by rewrite (Len_eq _ _ _ Hp).
  - intros h h1 h2 s d cs Hnew Hruns.
    destruct (newDelimiter_runs _ _ _ _ _ _ Hnew Hruns)
      as (p & n & -> & Hn & Hk & Hneedle & Hlen & _).
    exists p, n. rewrite (Len_eq _ _ _ Hn).
    destruct (decide (s = ""%string)) as [->|Hs].
    + simpl in *. destruct n as [b|b|b]; try discriminate Hk.
      simpl in *. by rewrite Hlen.
    + destruct (len s =? 0) eqn:Hz.
      { apply Z.eqb_eq, len_zero in Hz. done. }
      simpl in *. destruct n as [b|b|b]; try discriminate Hk.
      simpl in *. rewrite Hneedle. repeat split; done.
Qed.

Lemma Len_is_needle_length_witness :
  let m := dissect.multiByte
             {| dissect.needle := "=>"; dissect.length := 0;
                dissect.greedy := false; dissect.next := None |} in
  let h1 : gmap loc dissect.node := <[1%positive := m]> ∅ in
  let h2 : gmap loc dissect.node := <[1%positive := marked m]> h1 in
  exists p n,
    Some 1%positive = Some p /\ h2 !! p = Some n /\
    dissect.kind_of n = dissect.MultiByte /\
    dissect.needle (dissect.embedded n) = "=>"%string /\
    dissect.Len (Some 1%positive) h2 = dissect.Ok 2 h2 /\
    (dissect.kind_of n = dissect.ZeroByte ->
     dissect.Len (Some 1%positive) h2 = dissect.Ok 0 h2).
Proof.
  intros m h1 h2.
  refine (proj2 Len_is_needle_length ∅ h1 h2 "=>"%string (Some 1%positive)
            [dissect.CallMarkGreedy (Some 1%positive)] _ _).
  - reflexivity.
  - reflexivity.
Defined.

(** ** The greedy flag *)

Lemma marked_greedy o : dissect.greedy (dissect.embedded (marked o)) = true.
Proof. by destruct o. Qed.

Lemma marked_marked o : marked (marked o) = marked o.
Proof. by destruct o. Qed.

(** A second [MarkGreedy] changes nothing. *)
Lemma MarkGreedy_twice d (h h1 : gmap loc dissect.node) :
  dissect.MarkGreedy d h = dissect.Ok tt h1 ->
  dissect.MarkGreedy d h1 = dissect.Ok tt h1.
Proof.
  intros Hcall.
  destruct (MarkGreedy_allocated _ _ _ _ Hcall) as (p & o & -> & Hp).
  rewrite (MarkGreedy_eq _ _ _ Hp) in Hcall. injection Hcall as <-.
  rewrite (MarkGreedy_eq _ _ (marked o)) by apply lookup_insert_eq.
  by rewrite insert_insert_eq, marked_marked.
Qed.

Lemma MarkGreedy_times_once k : forall d (h h1 : gmap loc dissect.node),
  dissect.MarkGreedy d h = dissect.Ok tt h1 ->
  dissect.MarkGreedy_times (S k) d h = dissect.Ok tt h1.
Proof.
  induction k as [|k IH]; intros d h h1 Hcall.
  - simpl. unfold dissect.bind. by rewrite Hcall.
  - change (dissect.MarkGreedy_times (S (S k)) d h)
      with (dissect.bind (dissect.MarkGreedy d)
              (fun _ => dissect.MarkGreedy_times (S k) d) h).
    unfold dissect.bind at 1. rewrite Hcall.
    apply IH. eapply MarkGreedy_twice, Hcall.
Qed.

(** C7. [MarkGreedy] on a node returns, and called once or any number of
    times in a row it leaves the same heap, in which [IsGreedy] is true.
    A delimiter fresh from the factory is not greedy. No call ever takes
    the flag back: on a greedy node, [IsGreedy] stays true after any
    sequence of calls. *)
Theorem MarkGreedy_idempotent :
  (forall (h : gmap loc dissect.node) d k,
      allocated h d ->
      exists h',
        dissect.MarkGreedy d h = dissect.Ok tt h' /\
        dissect.MarkGreedy_times (S k) d h = dissect.Ok tt h' /\
        dissect.IsGreedy d h' = dissect.Ok true h')
  /\
  (forall (h h1 : gmap loc dissect.node) s d,
      dissect.newDelimiter s h = dissect.Ok d h1 ->
      dissect.IsGreedy d h1 = dissect.Ok false h1)
  /\
  (forall (h h' : gmap loc dissect.node) p n cs,
      h !! p = Some n ->
      dissect.greedy (dissect.embedded n) = true ->
      dissect.runs cs h = Some h' ->
      dissect.IsGreedy (Some p) h' = dissect.Ok true h').
Proof.
  split; [|split].
  - intros h d k (p & o & -> & Hp).
    exists (<[p := marked o]> h).
    assert (Hcall := MarkGreedy_eq _ _ _ Hp).
    split; [done|]. split; [by apply MarkGreedy_times_once|].
    rewrite (IsGreedy_eq _ _ (marked o)) by apply lookup_insert_eq.
    by rewrite marked_greedy.
  - intros h h1 s d. rewrite newDelimiter_eq. simpl. intros [= <- <-].
    erewrite IsGreedy_eq by apply lookup_insert_eq.
    by destruct (len s =? 0).
  - intros h h' p n cs Hp Hg Hruns.
    destruct (runs_later _ _ _ _ _ Hruns Hp) as (n' & Hp' & _ & _ & _ & Hg').
    rewrite (IsGreedy_eq _ _ _ Hp'). by rewrite Hg'.
Qed.

Lemma MarkGreedy_idempotent_witness :
  let h : gmap loc dissect.node := {[ 1%positive := dissect.zeroByte dissect.zero ]} in
  exists h',
    dissect.MarkGreedy (Some 1%positive) h = dissect.Ok tt h' /\
    dissect.MarkGreedy_times 3 (Some 1%positive) h = dissect.Ok tt h' /\
    dissect.IsGreedy (Some 1%positive) h' = dissect.Ok true h'.
Proof.
  intros h. apply (proj1 MarkGreedy_idempotent h (Some 1%positive) 2%nat).
  exists 1%positive, (dissect.zeroByte dissect.zero). split; reflexivity.
Defined.

(** ** The chain *)

Lemma linked_next o d : dissect.next (dissect.embedded (linked o d)) = d.
Proof. by destruct o. Qed.

(** Three nodes that point one to the next, the last to nil. *)
Lemma walk_three (h : gmap loc dissect.node) a b c na nb nc fuel :
  h !! a = Some na -> dissect.next (dissect.embedded na) = Some b ->
  h !! b = Some nb -> dissect.next (dissect.embedded nb) = Some c ->
  h !! c = Some nc -> dissect.next (dissect.embedded nc) = None ->
  (3 <= fuel)%nat ->
  dissect.walk fuel (Some a) h = Some [a; b; c].
Proof.
  intros Ha Hab Hb Hbc Hc Hcn Hfuel.
  destruct fuel as [|[|[|fuel]]]; try lia. simpl.
  rewrite (Next_eq _ _ _ Ha), Hab.
  rewrite (Next_eq _ _ _ Hb), Hbc.
  rewrite (Next_eq _ _ _ Hc), Hcn.
  by destruct fuel.
Qed.

(** C8. After [a.SetNext(n)], [a.Next()] is [n], be it a node or nil. For
    three distinct nodes [a], [b], [c], the last without a successor, linked
    by [a.SetNext(b)] and [b.SetNext(c)] in either order, the walk from [a]
    along [Next] visits [a], [b], [c] and ends: three iterations or more
    are enough. *)
Theorem SetNext_Next_roundtrip :
  (forall (h : gmap loc dissect.node) a n,
      allocated h a ->
      exists h',
        dissect.SetNext a n h = dissect.Ok tt h' /\
        dissect.Next a h' = dissect.Ok n h')
  /\
  (forall (h h' : gmap loc dissect.node) a b c cs fuel,
      a <> b -> b <> c -> a <> c ->
      dissect.Next (Some c) h = dissect.Ok None h ->
      cs = [dissect.CallSetNext (Some a) (Some b);
            dissect.CallSetNext (Some b) (Some c)] \/
      cs = [dissect.CallSetNext (Some b) (Some c);
            dissect.CallSetNext (Some a) (Some b)] ->
      dissect.runs cs h = Some h' ->
      (3 <= fuel)%nat ->
      dissect.walk fuel (Some a) h' = Some [a; b; c]).
Proof.
  split.
  - intros h a n (p & o & -> & Hp).
    exists (<[p := linked o n]> h). split; [by apply SetNext_eq|].
    rewrite (Next_eq _ _ (linked o n)) by apply lookup_insert_eq.
    by rewrite linked_next.
  - intros h h' a b c cs fuel Hab Hbc Hac Hlast Hcs Hruns Hfuel.
    destruct (Next_allocated _ _ _ _ Hlast) as (c' & nc & [= <-] & Hc).
    rewrite (Next_eq _ _ _ Hc) in Hlast. injection Hlast as Hcn.
    destruct Hcs as [-> | ->]; simpl in Hruns.
    + destruct (dissect.SetNext (Some a) (Some b) h) as [[] h1|] eqn:H1; [|done].
      simpl in Hruns.
      destruct (dissect.SetNext (Some b) (Some c) h1) as [[] h2|] eqn:H2; [|done].
      simpl in Hruns. injection Hruns as ->.
      destruct (SetNext_allocated _ _ _ _ _ H1) as (a' & na & [= <-] & Ha).
      rewrite (SetNext_eq _ _ _ (Some b) Ha) in H1. injection H1 as <-.
      destruct (SetNext_allocated _ _ _ _ _ H2) as (b' & nb & [= <-] & Hb).
      rewrite (SetNext_eq _ _ _ (Some c) Hb) in H2. injection H2 as <-.
      apply (walk_three _ a b c (linked na (Some b)) (linked nb (Some c)) nc);
        rewrite ?linked_next; try done.
      * rewrite lookup_insert_ne by done. apply lookup_insert_eq.
      * apply lookup_insert_eq.
      * by rewrite !lookup_insert_ne by done.
    + destruct (dissect.SetNext (Some b) (Some c) h) as [[] h1|] eqn:H1; [|done].
      simpl in Hruns.
      destruct (dissect.SetNext (Some a) (Some b) h1) as [[] h2|] eqn:H2; [|done].
      simpl in Hruns. injection Hruns as ->.
      destruct (SetNext_allocated _ _ _ _ _ H1) as (b' & nb & [= <-] & Hb).
      rewrite (SetNext_eq _ _ _ (Some c) Hb) in H1. injection H1 as <-.
      destruct (SetNext_allocated _ _ _ _ _ H2) as (a' & na & [= <-] & Ha).
      rewrite (SetNext_eq _ _ _ (Some b) Ha) in H2. injection H2 as <-.
      apply (walk_three _ a b c (linked na (Some b)) (linked nb (Some c)) nc);
        rewrite ?linked_next; try done.
      * apply lookup_insert_eq.
      * rewrite lookup_insert_ne by done. apply lookup_insert_eq.
      * by rewrite !lookup_insert_ne by done.
Qed.

Lemma SetNext_Next_roundtrip_witness :
  let h : gmap loc dissect.node :=
    <[3%positive := dissect.zeroByte dissect.zero]>
      (<[2%positive := dissect.zeroByte dissect.zero]>
         (<[1%positive := dissect.zeroByte dissect.zero]> ∅)) in
  let cs := [dissect.CallSetNext (Some 1%positive) (Some 2%positive);
             dissect.CallSetNext (Some 2%positive) (Some 3%positive)] in
  exists h', dissect.runs cs h = Some h' /\
             dissect.walk 4 (Some 1%positive) h' = Some [1%positive; 2%positive; 3%positive].
Proof.
  intros h cs. eexists. split; [reflexivity|].
  apply (proj2 SetNext_Next_roundtrip h _ 1%positive 2%positive 3%positive cs 4%nat).
  - discriminate.
  - discriminate.
  - discriminate.
  - reflexivity.
  - left. reflexivity.
  - reflexivity.
  - repeat constructor.
Defined.

(** The same chain from the factory, linked last link first. *)
Example chain_from_factory :
  dissect.value_of
    (dissect.bind (dissect.newDelimiter "") (fun a =>
     dissect.bind (dissect.newDelimiter ", ") (fun b =>
     dissect.bind (dissect.newDelimiter ";") (fun c =>
     dissect.bind (dissect.SetNext b c) (fun _ =>
     dissect.bind (dissect.SetNext a b) (fun _ h =>
     dissect.Ok (dissect.walk 3 a h) h))))) ∅)
  = Some (Some [1%positive; 2%positive; 3%positive]).
Proof. reflexivity. Qed.

(** ** An offset out of range *)

(** C9. [IndexOf] of a substring delimiter with an offset below 0 or above
    [len(haystack)] panics: the slice expression [haystack[offset:]] is out
    of range. Nothing is clamped and nothing is returned. *)
Theorem multiByte_IndexOf_out_of_range (h : gmap loc dissect.node) p b H o :
  h !! p = Some (dissect.multiByte b) ->
  o < 0 \/ len H < o ->
  dissect.IndexOf (Some p) H o h = dissect.Panicked dissect.SliceBoundsOutOfRange.
Proof.
  intros Hp Ho. rewrite (IndexOf_multi _ _ _ H o Hp eq_refl).
  assert ((o <? 0) || (len H <? o) = true) as ->; [|done].
  apply orb_true_iff. lia.
Qed.

Lemma multiByte_IndexOf_out_of_range_witness :
  let b := {| dissect.needle := "-"; dissect.length := 0;
              dissect.greedy := false; dissect.next := None |} in
  let h : gmap loc dissect.node := {[ 1%positive := dissect.multiByte b ]} in
  dissect.IndexOf (Some 1%positive) "2021-01-01" 11 h =
  dissect.Panicked dissect.SliceBoundsOutOfRange.
Proof.
  intros b h.
  apply (multiByte_IndexOf_out_of_range h 1%positive b "2021-01-01" 11).
  - reflexivity.
  - right. vm_compute. reflexivity.
Defined.

Example IndexOf_negative_offset :
  dissect.bind (dissect.newDelimiter "-")
    (fun d => dissect.IndexOf d "2021-01-01" (-1)) ∅ =
  dissect.Panicked dissect.SliceBoundsOutOfRange.
Proof. reflexivity. Qed.

(** The offset [len(haystack)] itself is in range: the suffix is empty. *)
Example IndexOf_at_end :
  dissect.value_of
    (dissect.bind (dissect.newDelimiter "-")
       (fun d => dissect.IndexOf d "2021-01-01" 10) ∅) = Some (-1).
Proof. reflexivity. Qed.

(** ** What each method leaves alone *)

Lemma marked_frame o :
  dissect.kind_of (marked o) = dissect.kind_of o /\
  dissect.needle (dissect.embedded (marked o)) = dissect.needle (dissect.embedded o) /\
  dissect.length (dissect.embedded (marked o)) = dissect.length (dissect.embedded o) /\
  dissect.next (dissect.embedded (marked o)) = dissect.next (dissect.embedded o).
Proof. by destruct o. Qed.

Lemma linked_frame o d :
  dissect.kind_of (linked o d) = dissect.kind_of o /\
  dissect.needle (dissect.embedded (linked o d)) = dissect.needle (dissect.embedded o) /\
  dissect.length (dissect.embedded (linked o d)) = dissect.length (dissect.embedded o) /\
  dissect.greedy (dissect.embedded (linked o d)) = dissect.greedy (dissect.embedded o).
Proof. by destruct o. Qed.

(** C10. [IndexOf], [Len], [Delimiter], [String], [IsGreedy] and [Next]
    return in the heap they were called in: no field of any node changes.
    [MarkGreedy] changes the receiver only, and of it only the greedy flag:
    struct type, needle, length and next are as before. [SetNext] changes
    the receiver only, and of it only the next link: struct type, needle,
    length and greedy are as before. *)
Theorem methods_frame (h h' : gmap loc dissect.node) (d : delimiter) :
  (forall H o v, dissect.IndexOf d H o h = dissect.Ok v h' -> h' = h) /\
  (forall v, dissect.Len d h = dissect.Ok v h' -> h' = h) /\
  (forall v, dissect.Delimiter d h = dissect.Ok v h' -> h' = h) /\
  (forall v, dissect.String d h = dissect.Ok v h' -> h' = h) /\
  (forall v, dissect.IsGreedy d h = dissect.Ok v h' -> h' = h) /\
  (forall v, dissect.Next d h = dissect.Ok v h' -> h' = h) /\
  (forall v, dissect.MarkGreedy d h = dissect.Ok v h' ->
     exists p n n',
       d = Some p /\ h !! p = Some n /\ h' !! p = Some n' /\
       (forall q, q <> p -> h' !! q = h !! q) /\
       dissect.kind_of n' = dissect.kind_of n /\
       dissect.needle (dissect.embedded n') = dissect.needle (dissect.embedded n) /\
       dissect.length (dissect.embedded n') = dissect.length (dissect.embedded n) /\
       dissect.next (dissect.embedded n') = dissect.next (dissect.embedded n)) /\
  (forall m v, dissect.SetNext d m h = dissect.Ok v h' ->
     exists p n n',
       d = Some p /\ h !! p = Some n /\ h' !! p = Some n' /\
       (forall q, q <> p -> h' !! q = h !! q) /\
       dissect.kind_of n' = dissect.kind_of n /\
       dissect.needle (dissect.embedded n') = dissect.needle (dissect.embedded n) /\
       dissect.length (dissect.embedded n') = dissect.length (dissect.embedded n) /\
       dissect.greedy (dissect.embedded n') = dissect.greedy (dissect.embedded n)).
Proof.
  repeat split.
  - intros H o v. apply IndexOf_heap.
  - intros v. apply Len_heap.
  - intros v. apply Delimiter_heap.
  - intros v. apply String_heap.
  - intros v. apply IsGreedy_heap.
  - intros v. apply Next_heap.
  - intros v Hcall.
    destruct (MarkGreedy_allocated _ _ _ _ Hcall) as (p & n & -> & Hp).
    rewrite (MarkGreedy_eq _ _ _ Hp) in Hcall. injection Hcall as <- <-.
    exists p, n, (marked n).
    split; [done|]. split; [done|]. split; [apply lookup_insert_eq|].
    split; [|apply marked_frame].
    intros q Hq. by rewrite lookup_insert_ne.
  - intros m v Hcall.
    destruct (SetNext_allocated _ _ _ _ _ Hcall) as (p & n & -> & Hp).
    rewrite (SetNext_eq _ _ _ m Hp) in Hcall. injection Hcall as <- <-.
    exists p, n, (linked n m).
    split; [done|]. split; [done|]. split; [apply lookup_insert_eq|].
    split; [|apply linked_frame].
    intros q Hq. by rewrite lookup_insert_ne.
Qed.

Lemma methods_frame_witness :
  let m := dissect.multiByte
             {| dissect.needle := "=>"; dissect.length := 0;
                dissect.greedy := false; dissect.next := Some 2%positive |} in
  let h : gmap loc dissect.node :=
    <[2%positive := dissect.zeroByte dissect.zero]> (<[1%positive := m]> ∅) in
  let h' : gmap loc dissect.node := <[1%positive := marked m]> h in
  (forall v, dissect.Len (Some 1%positive) h = dissect.Ok v h -> h = h) /\
  exists p n n',
    Some 1%positive = Some p /\ h !! p = Some n /\ h' !! p = Some n' /\
    (forall q, q <> p -> h' !! q = h !! q) /\
    dissect.kind_of n' = dissect.kind_of n /\
    dissect.needle (dissect.embedded n') = dissect.needle (dissect.embedded n) /\
    dissect.length (dissect.embedded n') = dissect.length (dissect.embedded n) /\
    dissect.next (dissect.embedded n') = dissect.next (dissect.embedded n).
Proof.
  intros m h h'. split.
  - exact (proj1 (proj2 (methods_frame h h (Some 1%positive)))).
  - destruct (methods_frame h h' (Some 1%positive))
      as (_ & _ & _ & _ & _ & _ & Hmark & _).
    apply (Hmark tt). reflexivity.
Defined.


(** ** More on the substring delimiter *)

(** [IndexOf] of a [multiByte] at an offset in range: the first occurrence
    at or after the offset, which lies within the haystack, or -1 when
    there is none. *)
Lemma IndexOf_multi_valid (h : gmap loc dissect.node) p b H o :
  h !! p = Some (dissect.multiByte b) ->
  go_string H ->
  valid_offset H o ->
  (exists i, dissect.IndexOf (Some p) H o h = dissect.Ok i h /\
             o <= i /\ i + len (dissect.needle b) <= len H /\
             occurs_at (dissect.needle b) H i /\
             forall j, o <= j < i -> ~ occurs_at (dissect.needle b) H j)
  \/
  (dissect.IndexOf (Some p) H o h = dissect.Ok (-1) h /\
   forall j, o <= j -> ~ occurs_at (dissect.needle b) H j).
Proof.
  intros Hp HH Ho.
  rewrite (IndexOf_multi _ _ _ H o Hp eq_refl). simpl.
  assert ((o <? 0) || (len H <? o) = false) as ->.
  { unfold valid_offset in Ho. apply orb_false_iff. lia. }
  destruct (Index_suffix_spec (dissect.needle b) H o Ho)
    as [(Hr & Hle & Hocc & Hmin)|[Hr Hno]].
  - left. set (r := strings.Index _ _) in *.
    assert (negb (r =? -1) = true) as -> by (apply negb_true_iff; lia).
    assert (int.add r o = o + r) as ->.
    { rewrite add_exact; [lia|].
      unfold go_string, valid_offset, int.in_range in *.
      unfold int.min_int, int.max_int, int.bits in *. lia. }
    exists (o + r). split; [done|]. split; [lia|].
    split; [by destruct Hocc as (_ & ? & _)|]. by split.
  - right. rewrite Hr. by split.
Qed.

(** A call that returns had its offset in range. *)
Lemma IndexOf_multi_returns (h h' : gmap loc dissect.node) p b H o i :
  h !! p = Some (dissect.multiByte b) ->
  dissect.IndexOf (Some p) H o h = dissect.Ok i h' ->
  valid_offset H o /\ h' = h.
Proof.
  intros Hp Hcall. split; [|eapply IndexOf_heap, Hcall].
  rewrite (IndexOf_multi _ _ _ H o Hp eq_refl) in Hcall.
  destruct ((o <? 0) || (len H <? o)) eqn:Hr; [done|].
  apply orb_false_iff in Hr. unfold valid_offset. lia.
Qed.

(** X1. An index that a substring delimiter returns is -1 or a place where
    the whole delimiter fits: at or after the offset, with [i + Len()] at
    most [len(haystack)]. So [i + Len()] is an offset that the next lookup
    accepts. *)
Theorem multiByte_IndexOf_in_bounds (h h' : gmap loc dissect.node) p b H o i :
  h !! p = Some (dissect.multiByte b) ->
  go_string H ->
  dissect.IndexOf (Some p) H o h = dissect.Ok i h' ->
  exists w,
    dissect.Len (Some p) h' = dissect.Ok w h' /\ 0 <= w /\
    (i = -1 \/ (0 <= o <= i /\ i + w <= len H /\ valid_offset H (i + w))).
Proof.
  intros Hp HH Hcall.
  destruct (IndexOf_multi_returns _ _ _ _ _ _ _ Hp Hcall) as [Ho ->].
  exists (len (dissect.needle b)).
  split; [by rewrite (Len_eq _ _ _ Hp)|].
  split; [unfold len; lia|].
  destruct (IndexOf_multi_valid _ _ _ _ _ Hp HH Ho)
    as [(i' & Hi' & Hle & Hfit & _)|[Hi' _]];
    rewrite Hi' in Hcall; injection Hcall as <-; [right|by left].
  unfold valid_offset in *. unfold len in *. lia.
Qed.

Lemma multiByte_IndexOf_in_bounds_witness :
  let b := {| dissect.needle := ", "; dissect.length := 0;
              dissect.greedy := false; dissect.next := None |} in
  let h : gmap loc dissect.node := {[ 1%positive := dissect.multiByte b ]} in
  exists w,
    dissect.Len (Some 1%positive) h = dissect.Ok w h /\ 0 <= w /\
    (4 = -1 \/ (0 <= 2 <= 4 /\ 4 + w <= len "a, b, c" /\
                valid_offset "a, b, c" (4 + w))).
Proof.
  intros b h.
  apply (multiByte_IndexOf_in_bounds h h 1%positive b "a, b, c" 2 4).
  - reflexivity.
  - unfold go_string. vm_compute. discriminate.
  - reflexivity.
Defined.

(** X2. Looking again from a later offset gives the same answer as long as
    the offset has not passed the match: if [IndexOf(H, o)] is [i], then
    [IndexOf(H, o')] is [i] for every [o <= o' <= i]; and once the answer
    is -1 it is -1 from every later offset. *)
Theorem multiByte_IndexOf_later_offset
    (h : gmap loc dissect.node) p b H o o' i :
  h !! p = Some (dissect.multiByte b) ->
  go_string H ->
  dissect.IndexOf (Some p) H o h = dissect.Ok i h ->
  valid_offset H o' ->
  o <= o' ->
  (i = -1 \/ o' <= i) ->
  dissect.IndexOf (Some p) H o' h = dissect.Ok i h.
Proof.
  intros Hp HH Hcall Ho' Hle Hi.
  destruct (IndexOf_multi_returns _ _ _ _ _ _ _ Hp Hcall) as [Ho _].
  assert (0 <= o) by (unfold valid_offset in Ho; lia).
  destruct (IndexOf_multi_valid _ _ _ _ _ Hp HH Ho)
    as [(i1 & Hi1 & Hle1 & _ & Hocc1 & Hmin1)|[Hi1 Hno1]];
    rewrite Hi1 in Hcall; injection Hcall as <-;
    destruct (IndexOf_multi_valid _ _ _ _ _ Hp HH Ho')
      as [(i2 & Hi2 & Hle2 & _ & Hocc2 & Hmin2)|[Hi2 Hno2]];
    rewrite Hi2.
  - destruct Hi as [Hi|Hi]; [lia|]. f_equal.
    destruct (Z.lt_trichotomy i1 i2) as [Hlt|[Heq|Hgt]]; [|done|].
    + destruct (Hmin2 i1); [lia|done].
    + destruct (Hmin1 i2); [lia|done].
  - destruct Hi as [Hi|Hi]; [lia|]. by destruct (Hno2 i1).
  - destruct (Hno1 i2); [lia|done].
  - done.
Qed.

Lemma multiByte_IndexOf_later_offset_witness :
  let b := {| dissect.needle := ", "; dissect.length := 0;
              dissect.greedy := false; dissect.next := None |} in
  let h : gmap loc dissect.node := {[ 1%positive := dissect.multiByte b ]} in
  dissect.IndexOf (Some 1%positive) "a, b, c" 3 h = dissect.Ok 4 h.
Proof.
  intros b h.
  apply (multiByte_IndexOf_later_offset h 1%positive b "a, b, c" 2 3 4).
  - reflexivity.
  - unfold go_string. vm_compute. discriminate.
  - reflexivity.
  - unfold valid_offset. vm_compute. split; discriminate.
  - vm_compute. discriminate.
  - right. vm_compute. discriminate.
Defined.

(** X3. The only panic of [IndexOf] on a node is the slice expression of
    the substring kind: if [IndexOf] panics, the node is a [multiByte] and
    the offset is below 0 or above [len(haystack)]. An anchor or a
    fixed-length delimiter checks nothing and returns at every offset. *)
Theorem IndexOf_panics_only_out_of_range
    (h : gmap loc dissect.node) p n H o e :
  h !! p = Some n ->
  dissect.IndexOf (Some p) H o h = dissect.Panicked e ->
  e = dissect.SliceBoundsOutOfRange /\
  dissect.kind_of n = dissect.MultiByte /\
  (o < 0 \/ len H < o).
Proof.
  intros Hp Hcall.
  destruct (decide (dissect.kind_of n = dissect.MultiByte)) as [Hk|Hk].
  - rewrite (IndexOf_multi _ _ _ H o Hp Hk) in Hcall.
    destruct ((o <? 0) || (len H <? o)) eqn:Hr; [|done].
    injection Hcall as <-. apply orb_true_iff in Hr.
    split; [done|]. split; [done|lia].
  - by rewrite (IndexOf_base _ _ _ H o Hp Hk) in Hcall.
Qed.

Lemma IndexOf_panics_only_out_of_range_witness :
  let b := {| dissect.needle := "-"; dissect.length := 0;
              dissect.greedy := false; dissect.next := None |} in
  dissect.SliceBoundsOutOfRange = dissect.SliceBoundsOutOfRange /\
  dissect.kind_of (dissect.multiByte b) = dissect.MultiByte /\
  (-1 < 0 \/ len "abc" < -1).
Proof.
  intros b.
  apply (IndexOf_panics_only_out_of_range
           {[ 1%positive := dissect.multiByte b ]} 1%positive
           (dissect.multiByte b) "abc" (-1) dissect.SliceBoundsOutOfRange).
  - reflexivity.
  - reflexivity.
Defined.

(** An anchor handed a negative offset hands it back. *)
Example anchor_negative_offset :
  dissect.value_of
    (dissect.bind (dissect.newDelimiter "")
       (fun d => dissect.IndexOf d "abc" (-5)) ∅) = Some (-5).
Proof. reflexivity. Qed.

(** X4. When less of the haystack is left from the offset than the needle
    is long, the answer is -1; so it is at the offset [len(haystack)] for
    every needle that is not empty. *)
Theorem multiByte_IndexOf_short_rest (h : gmap loc dissect.node) p b H o :
  h !! p = Some (dissect.multiByte b) ->
  valid_offset H o ->
  len H - o < len (dissect.needle b) ->
  dissect.IndexOf (Some p) H o h = dissect.Ok (-1) h.
Proof.
  intros Hp Ho Hshort.
  rewrite (IndexOf_multi _ _ _ H o Hp eq_refl). simpl.
  assert ((o <? 0) || (len H <? o) = false) as ->.
  { unfold valid_offset in Ho. apply orb_false_iff. lia. }
  destruct (Index_suffix_spec (dissect.needle b) H o Ho)
    as [(Hr & Hle & (_ & Hfit & _) & _)|[Hr _]]; [lia|].
  by rewrite Hr.
Qed.

Lemma multiByte_IndexOf_short_rest_witness :
  let b := {| dissect.needle := "=>"; dissect.length := 0;
              dissect.greedy := false; dissect.next := None |} in
  let h : gmap loc dissect.node := {[ 1%positive := dissect.multiByte b ]} in
  dissect.IndexOf (Some 1%positive) "k=>v=" 4 h = dissect.Ok (-1) h.
Proof.
  intros b h.
  apply (multiByte_IndexOf_short_rest h 1%positive b "k=>v=" 4).
  - reflexivity.
  - unfold valid_offset. vm_compute. split; discriminate.
  - vm_compute. reflexivity.
Defined.

Lemma len_append P S : len (P ++ S) = len P + len S.
Proof.
  unfold len. induction P as [|c P IH]; simpl; [done|]. lia.
Qed.

Lemma drop_bytes_append P S : drop_bytes (String.length P) (P ++ S) = S.
Proof. induction P as [|c P IH]; simpl; [by destruct S|done]. Qed.

(** X5. The bytes before the offset play no part: looking in [P ++ S] from
    the offset [len(P)] is looking in [S] from 0, with the index moved by
    [len(P)] (and -1 left as -1). A needle that straddles the offset is
    not found there. *)
Theorem multiByte_IndexOf_ignores_prefix (h : gmap loc dissect.node) p b P S :
  h !! p = Some (dissect.multiByte b) ->
  go_string (P ++ S) ->
  dissect.value_of (dissect.IndexOf (Some p) (P ++ S) (len P) h) =
  shift_index (len P) <$> dissect.value_of (dissect.IndexOf (Some p) S 0 h).
Proof.
  intros Hp HH.
  rewrite !(IndexOf_multi _ _ _ _ _ Hp eq_refl). simpl.
  assert (Hlen := len_append P S).
  assert ((len P <? 0) || (len (P ++ S) <? len P) = false) as ->.
  { apply orb_false_iff. unfold len in *. lia. }
  assert ((len S <? 0) = false) as -> by (apply Z.ltb_ge; unfold len; lia).
  simpl. f_equal.
  replace (Z.to_nat (len P)) with (String.length P) by (unfold len; lia).
  rewrite drop_bytes_append.
  assert (Hzero : valid_offset S 0) by (unfold valid_offset, len; lia).
  destruct (Index_suffix_spec (dissect.needle b) S 0 Hzero)
    as [(Hr & Hle & _)|[Hr _]]; simpl in *.
  - set (r := strings.Index _ _) in *.
    assert (negb (r =? -1) = true) as -> by (apply negb_true_iff; lia).
    unfold shift_index.
    assert (int.in_range (r + len P)).
    { unfold go_string, int.in_range, len in *.
      unfold int.min_int, int.max_int, int.bits in *. lia. }
    assert (int.in_range (r + 0)).
    { unfold go_string, int.in_range, len in *.
      unfold int.min_int, int.max_int, int.bits in *. lia. }
    rewrite !add_exact by done.
    destruct (r + 0 =? -1) eqn:Hs; lia.
  - by rewrite Hr.
Qed.

Lemma multiByte_IndexOf_ignores_prefix_witness :
  let b := {| dissect.needle := ", "; dissect.length := 0;
              dissect.greedy := false; dissect.next := None |} in
  let h : gmap loc dissect.node := {[ 1%positive := dissect.multiByte b ]} in
  dissect.value_of (dissect.IndexOf (Some 1%positive) ("a," ++ " b, c") (len "a,") h) =
  shift_index (len "a,") <$>
    dissect.value_of (dissect.IndexOf (Some 1%positive) " b, c" 0 h).
Proof.
  intros b h.
  apply (multiByte_IndexOf_ignores_prefix h 1%positive b "a," " b, c").
  - reflexivity.
  - unfold go_string. vm_compute. discriminate.
Defined.

(** ** What a node answers, now and later *)

Lemma String_eq (h : gmap loc dissect.node) p o :
  h !! p = Some o ->
  dissect.String (Some p) h =
  dissect.Ok
    (match o with
     | dissect.zeroByte _ => "delimiter: zerobyte"
     | dissect.fixedLengthByte b =>
         "delimiter: fixedlengthbyte (len: "
         +:+ int.format (dissect.length b) +:+ ")"
     | dissect.multiByte b =>
         "delimiter: multibyte (match: '" +:+ dissect.needle b
         +:+ "', len: " +:+ int.format (len (dissect.needle b)) +:+ ")"
     end)%string h.
Proof.
  intros Hp. unfold_methods. rewrite Hp.
  destruct o; simpl; repeat (rewrite Hp; simpl); done.
Qed.

(** Two states of a node, one later than the other, answer alike. *)
Lemma later_answers (h h' : gmap loc dissect.node) p n n' :
  h !! p = Some n -> h' !! p = Some n' -> later n n' ->
  (forall H o, dissect.value_of (dissect.IndexOf (Some p) H o h') =
               dissect.value_of (dissect.IndexOf (Some p) H o h)) /\
  dissect.value_of (dissect.Len (Some p) h') =
    dissect.value_of (dissect.Len (Some p) h) /\
  dissect.value_of (dissect.Delimiter (Some p) h') =
    dissect.value_of (dissect.Delimiter (Some p) h) /\
  dissect.value_of (dissect.String (Some p) h') =
    dissect.value_of (dissect.String (Some p) h).
Proof.
  intros Hp Hp' (Hk & Hneedle & Hlen & _).
  repeat split.
  - intros H o.
    destruct (decide (dissect.kind_of n = dissect.MultiByte)) as [Hm|Hm].
    + rewrite (IndexOf_multi _ _ _ H o Hp Hm).
      rewrite (IndexOf_multi _ _ _ H o Hp') by congruence.
      rewrite Hneedle. by destruct (_ || _).
    + rewrite (IndexOf_base _ _ _ H o Hp Hm).
      rewrite (IndexOf_base _ _ _ H o Hp') by congruence.
      by rewrite Hlen.
  - rewrite (Len_eq _ _ _ Hp), (Len_eq _ _ _ Hp').
    destruct n, n'; try discriminate Hk; simpl in *; congruence.
  - rewrite (Delimiter_eq _ _ _ Hp), (Delimiter_eq _ _ _ Hp'). simpl.
    by rewrite Hneedle.
  - rewrite (String_eq _ _ _ Hp), (String_eq _ _ _ Hp').
    destruct n, n'; try discriminate Hk; simpl in *; congruence.
Qed.

(** X6. What a node answers to [IndexOf], [Len], [Delimiter] and [String]
    is fixed when it is built: after any sequence of calls, on this node or
    on others ([MarkGreedy] and [SetNext] among them), the four methods
    answer what they answered before. *)
Theorem answers_survive_calls (h h' : gmap loc dissect.node) p n cs :
  h !! p = Some n ->
  dissect.runs cs h = Some h' ->
  (forall H o, dissect.value_of (dissect.IndexOf (Some p) H o h') =
               dissect.value_of (dissect.IndexOf (Some p) H o h)) /\
  dissect.value_of (dissect.Len (Some p) h') =
    dissect.value_of (dissect.Len (Some p) h) /\
  dissect.value_of (dissect.Delimiter (Some p) h') =
    dissect.value_of (dissect.Delimiter (Some p) h) /\
  dissect.value_of (dissect.String (Some p) h') =
    dissect.value_of (dissect.String (Some p) h).
Proof.
  intros Hp Hruns.
  destruct (runs_later _ _ _ _ _ Hruns Hp) as (n' & Hp' & Hlater).
  eapply later_answers; eauto.
Qed.

Lemma answers_survive_calls_witness :
  let b := {| dissect.needle := ", "; dissect.length := 0;
              dissect.greedy := false; dissect.next := None |} in
  let h : gmap loc dissect.node := {[ 1%positive := dissect.multiByte b ]} in
  let h' : gmap loc dissect.node :=
    <[1%positive := linked (marked (dissect.multiByte b)) (Some 1%positive)]>
      (<[1%positive := marked (dissect.multiByte b)]> h) in
  (forall H o, dissect.value_of (dissect.IndexOf (Some 1%positive) H o h') =
               dissect.value_of (dissect.IndexOf (Some 1%positive) H o h)) /\
  dissect.value_of (dissect.Len (Some 1%positive) h') =
    dissect.value_of (dissect.Len (Some 1%positive) h) /\
  dissect.value_of (dissect.Delimiter (Some 1%positive) h') =
    dissect.value_of (dissect.Delimiter (Some 1%positive) h) /\
  dissect.value_of (dissect.String (Some 1%positive) h') =
    dissect.value_of (dissect.String (Some 1%positive) h).
Proof.
  intros b h h'.
  apply (answers_survive_calls h h' 1%positive (dissect.multiByte b)
           [dissect.CallMarkGreedy (Some 1%positive);
            dissect.CallSetNext (Some 1%positive) (Some 1%positive)]).
  - reflexivity.
  - reflexivity.
Defined.

(** X7. [Delimiter] gives back the literal the factory was given, whatever
    was called in between; for the anchor that is the empty string. *)
Theorem newDelimiter_Delimiter (h h1 h2 : gmap loc dissect.node) s d cs :
  dissect.newDelimiter s h = dissect.Ok d h1 ->
  dissect.runs cs h1 = Some h2 ->
  dissect.Delimiter d h2 = dissect.Ok s h2.
Proof.
  intros Hnew Hruns.
  destruct (newDelimiter_runs _ _ _ _ _ _ Hnew Hruns)
    as (p & n & -> & Hn & _ & Hneedle & _).
  rewrite (Delimiter_eq _ _ _ Hn). f_equal. rewrite Hneedle.
  destruct (len s =? 0) eqn:Hz; [|done].
  apply Z.eqb_eq, len_zero in Hz. by subst.
Qed.

Lemma newDelimiter_Delimiter_witness :
  let m := dissect.multiByte
             {| dissect.needle := " - "; dissect.length := 0;
                dissect.greedy := false; dissect.next := None |} in
  let h1 : gmap loc dissect.node := <[1%positive := m]> ∅ in
  let h2 : gmap loc dissect.node := <[1%positive := marked m]> h1 in
  dissect.Delimiter (Some 1%positive) h2 = dissect.Ok " - "%string h2.
Proof.
  intros m h1 h2.
  apply (newDelimiter_Delimiter ∅ h1 h2 " - "%string (Some 1%positive)
           [dissect.CallMarkGreedy (Some 1%positive)]).
  - reflexivity.
  - reflexivity.
Defined.

(** X8. [String] of a delimiter from the factory names its kind: for the
    empty literal the fixed text of the anchor, for a literal [s] the text
    of the substring kind with [s] between quotes and the byte length of
    [s] in decimal. The greedy flag and the next link do not show, so the
    text is the same after any calls. *)
Theorem newDelimiter_String (h h1 h2 : gmap loc dissect.node) s d cs :
  dissect.newDelimiter s h = dissect.Ok d h1 ->
  dissect.runs cs h1 = Some h2 ->
  dissect.String d h2 =
  dissect.Ok
    (if decide (s = ""%string) then "delimiter: zerobyte"
     else "delimiter: multibyte (match: '" +:+ s
          +:+ "', len: " +:+ int.format (len s) +:+ ")")%string h2.
Proof.
  intros Hnew Hruns.
  destruct (newDelimiter_runs _ _ _ _ _ _ Hnew Hruns)
    as (p & n & -> & Hn & Hk & Hneedle & _).
  rewrite (String_eq _ _ _ Hn). f_equal.
  destruct (decide (s = ""%string)) as [->|Hs].
  - simpl in *. by destruct n.
  - destruct (len s =? 0) eqn:Hz.
    { apply Z.eqb_eq, len_zero in Hz. done. }
    simpl in *. destruct n as [b|b|b]; try discriminate Hk.
    simpl in *. by rewrite Hneedle.
Qed.

Lemma newDelimiter_String_witness :
  let m := dissect.multiByte
             {| dissect.needle := " - "; dissect.length := 0;
                dissect.greedy := false; dissect.next := None |} in
  let h1 : gmap loc dissect.node := <[1%positive := m]> ∅ in
  let h2 : gmap loc dissect.node := <[1%positive := marked m]> h1 in
  dissect.String (Some 1%positive) h2 =
  dissect.Ok "delimiter: multibyte (match: ' - ', len: 3)"%string h2.
Proof.
  intros m h1 h2.
  apply (newDelimiter_String ∅ h1 h2 " - "%string (Some 1%positive)
           [dissect.CallMarkGreedy (Some 1%positive)]).
  - reflexivity.
  - reflexivity.
Defined.

(** X9. A substring delimiter from the factory moves the cursor on: its
    [Len] is at least 1, so when [IndexOf(H, o)] finds it at [i], the place
    after the match, [i + Len()], is beyond [o] and still an offset that the
    next lookup accepts. *)
Theorem newDelimiter_match_advances
    (h0 h1 h h' : gmap loc dissect.node) s d cs H o i :
  dissect.newDelimiter s h0 = dissect.Ok d h1 ->
  s <> ""%string ->
  dissect.runs cs h1 = Some h ->
  go_string H ->
  dissect.IndexOf d H o h = dissect.Ok i h' ->
  i <> -1 ->
  exists w,
    dissect.Len d h' = dissect.Ok w h' /\
    1 <= w /\ o < i + w /\ valid_offset H (i + w).
Proof.
  intros Hnew Hs Hruns HH Hcall Hi.
  destruct (newDelimiter_runs _ _ _ _ _ _ Hnew Hruns)
    as (p & n & -> & Hn & Hk & Hneedle & _).
  destruct (len s =? 0) eqn:Hz.
  { apply Z.eqb_eq, len_zero in Hz. done. }
  apply Z.eqb_neq in Hz.
  simpl in *. destruct n as [b|b|b]; try discriminate Hk. simpl in *.
  destruct (IndexOf_multi_returns _ _ _ _ _ _ _ Hn Hcall) as [Ho ->].
  exists (len s). rewrite (Len_eq _ _ _ Hn), Hneedle.
  split; [done|]. split; [unfold len in *; lia|].
  destruct (IndexOf_multi_valid _ _ _ _ _ Hn HH Ho)
    as [(i' & Hi' & Hle & Hfit & _)|[Hi' _]];
    rewrite Hi' in Hcall; injection Hcall as <-; [|done].
  rewrite Hneedle in Hfit.
  unfold valid_offset in *. unfold len in *. lia.
Qed.

Lemma newDelimiter_match_advances_witness :
  let m := dissect.multiByte
             {| dissect.needle := ", "; dissect.length := 0;
                dissect.greedy := false; dissect.next := None |} in
  let h1 : gmap loc dissect.node := <[1%positive := m]> ∅ in
  exists w,
    dissect.Len (Some 1%positive) h1 = dissect.Ok w h1 /\
    1 <= w /\ 2 < 4 + w /\ valid_offset "a, b, c" (4 + w).
Proof.
  intros m h1.
  apply (newDelimiter_match_advances ∅ h1 h1 h1 ", "%string
           (Some 1%positive) [] "a, b, c" 2 4).
  - reflexivity.
  - discriminate.
  - reflexivity.
  - unfold go_string. vm_compute. discriminate.
  - reflexivity.
  - discriminate.
Defined.


(** ** Calls, one after the other *)

Lemma linked_linked o n1 n2 : linked (linked o n1) n2 = linked o n2.
Proof. by destruct o. Qed.

Lemma marked_linked o n : marked (linked o n) = linked (marked o) n.
Proof. by destruct o. Qed.

(** X10. Of two [SetNext] on one node the second one counts: the heap is
    the one that the second call alone leaves. [MarkGreedy] and [SetNext]
    do not get in each other's way: called in the other order, on one node
    or on two, they return as well and leave the same heap. *)
Theorem SetNext_MarkGreedy_compose :
  (forall (h h1 h2 : gmap loc dissect.node) d n1 n2,
      dissect.SetNext d n1 h = dissect.Ok tt h1 ->
      dissect.SetNext d n2 h1 = dissect.Ok tt h2 ->
      dissect.SetNext d n2 h = dissect.Ok tt h2)
  /\
  (forall (h h1 h2 : gmap loc dissect.node) d d' n,
      dissect.MarkGreedy d h = dissect.Ok tt h1 ->
      dissect.SetNext d' n h1 = dissect.Ok tt h2 ->
      exists h1',
        dissect.SetNext d' n h = dissect.Ok tt h1' /\
        dissect.MarkGreedy d h1' = dissect.Ok tt h2).
Proof.
  split.
  - intros h h1 h2 d n1 n2 H1 H2.
    destruct (SetNext_allocated _ _ _ _ _ H1) as (p & o & -> & Hp).
    rewrite (SetNext_eq _ _ _ n1 Hp) in H1. injection H1 as <-.
    rewrite (SetNext_eq _ _ (linked o n1)) in H2 by apply lookup_insert_eq.
    injection H2 as <-.
    rewrite (SetNext_eq _ _ _ n2 Hp).
    by rewrite insert_insert_eq, linked_linked.
  - intros h h1 h2 d d' n H1 H2.
    destruct (MarkGreedy_allocated _ _ _ _ H1) as (p & o & -> & Hp).
    rewrite (MarkGreedy_eq _ _ _ Hp) in H1. injection H1 as <-.
    destruct (SetNext_allocated _ _ _ _ _ H2) as (q & o' & -> & Hq).
    rewrite (SetNext_eq _ _ _ n Hq) in H2. injection H2 as <-.
    destruct (decide (p = q)) as [<-|Hne].
    + rewrite lookup_insert_eq in Hq. injection Hq as <-.
      exists (<[p := linked o n]> h). split; [by apply SetNext_eq|].
      rewrite (MarkGreedy_eq _ _ (linked o n)) by apply lookup_insert_eq.
      by rewrite !insert_insert_eq, marked_linked.
    + rewrite lookup_insert_ne in Hq by done.
      exists (<[q := linked o' n]> h).
      split; [by apply SetNext_eq|].
      rewrite (MarkGreedy_eq _ _ o) by (by rewrite lookup_insert_ne).
      by rewrite insert_insert_ne.
Qed.

Lemma SetNext_MarkGreedy_compose_witness :
  let z := dissect.zeroByte dissect.zero in
  let h : gmap loc dissect.node := <[2%positive := z]> (<[1%positive := z]> ∅) in
  let h1 : gmap loc dissect.node := <[1%positive := marked z]> h in
  let h2 : gmap loc dissect.node := <[2%positive := linked z (Some 1%positive)]> h1 in
  exists h1',
    dissect.SetNext (Some 2%positive) (Some 1%positive) h = dissect.Ok tt h1' /\
    dissect.MarkGreedy (Some 1%positive) h1' = dissect.Ok tt h2.
Proof.
  intros z h h1 h2.
  apply (proj2 SetNext_MarkGreedy_compose h h1 h2
           (Some 1%positive) (Some 2%positive) (Some 1%positive)).
  - reflexivity.
  - reflexivity.
Defined.

(** ** Chains of any length *)

Lemma walk_chain_in (h : gmap loc dissect.node) l :
  chain_in h l ->
  forall fuel, (List.length l <= fuel)%nat ->
               dissect.walk fuel (first_of l) h = Some l.
Proof.
  induction l as [|a rest IH]; intros Hchain fuel Hfuel.
  - by destruct fuel.
  - destruct Hchain as [(n & Ha & Hnext) Hrest].
    destruct fuel as [|fuel]; simpl in *; [lia|].
    rewrite (Next_eq _ _ _ Ha), Hnext.
    fold (first_of rest). rewrite IH; [done|done|lia].
Qed.

(** The calls of [links l] touch the nodes of [l] only. *)
Lemma runs_links_outside l : forall (h h' : gmap loc dissect.node) a,
  dissect.runs (links l) h = Some h' ->
  a ∉ l ->
  h' !! a = h !! a.
Proof.
  induction l as [|x [|y r] IH]; intros h h' a Hruns Ha.
  - by injection Hruns as <-.
  - by injection Hruns as <-.
  - change (links (x :: y :: r))
      with (dissect.CallSetNext (Some x) (Some y) :: links (y :: r)) in Hruns.
    simpl in Hruns.
    destruct (dissect.SetNext (Some x) (Some y) h) as [[] h1|] eqn:H1; [|done].
    simpl in Hruns.
    destruct (SetNext_allocated _ _ _ _ _ H1) as (x' & ox & [= <-] & Hx).
    rewrite (SetNext_eq _ _ _ (Some y) Hx) in H1. injection H1 as <-.
    apply not_elem_of_cons in Ha as [Hax Ha].
    rewrite (IH _ _ a Hruns) by done.
    by apply lookup_insert_ne.
Qed.

Lemma runs_links_chain l : forall h : gmap loc dissect.node,
  NoDup l ->
  (forall a, a ∈ l -> is_Some (h !! a)) ->
  (forall z, last l = Some z ->
             exists n, h !! z = Some n /\
                       dissect.next (dissect.embedded n) = None) ->
  exists h', dissect.runs (links l) h = Some h' /\ chain_in h' l.
Proof.
  induction l as [|x [|y r] IH]; intros h Hnodup Halloc Hlast.
  - exists h. by split.
  - exists h. split; [done|]. simpl. split; [|done]. by apply Hlast.
  - change (links (x :: y :: r))
      with (dissect.CallSetNext (Some x) (Some y) :: links (y :: r)).
    destruct (Halloc x) as [ox Hx]; [apply list_elem_of_here|].
    apply NoDup_cons in Hnodup as [Hxnotin Hnodup].
    simpl. rewrite (SetNext_eq _ _ _ (Some y) Hx). simpl.
    destruct (IH (<[x := linked ox (Some y)]> h)) as (h' & Hruns & Hchain).
    + done.
    + intros a Ha. rewrite lookup_insert_ne by (by intros ->).
      by apply Halloc, list_elem_of_further.
    + intros z Hz.
      assert (z ∈ y :: r) by (eapply last_Some_elem_of, Hz).
      rewrite lookup_insert_ne by (by intros ->). by apply Hlast.
    + exists h'. split; [done|]. split; [|done].
      exists (linked ox (Some y)). split; [|apply linked_next].
      rewrite (runs_links_outside _ _ _ x Hruns) by done.
      apply lookup_insert_eq.
Qed.

(** X11. A chain of any length: for distinct nodes [l[0], ..., l[k]], the
    last without a successor, the calls [l[0].SetNext(l[1])],
    [l[1].SetNext(l[2])], ... all return, and afterwards the walk from
    [l[0]] along [Next] visits exactly the nodes of [l], in order, and
    ends: as many iterations as there are nodes are enough. *)
Theorem links_walk (h : gmap loc dissect.node) l :
  NoDup l ->
  (forall a, a ∈ l -> is_Some (h !! a)) ->
  (forall z, last l = Some z -> dissect.Next (Some z) h = dissect.Ok None h) ->
  exists h',
    dissect.runs (links l) h = Some h' /\
    forall fuel, (List.length l <= fuel)%nat ->
                 dissect.walk fuel (first_of l) h' = Some l.
Proof.
  intros Hnodup Halloc Hlast.
  destruct (runs_links_chain l h) as (h' & Hruns & Hchain); [done|done|..].
  - intros z Hz. destruct (Halloc z) as [n Hn]; [by eapply last_Some_elem_of|].
    specialize (Hlast z Hz). rewrite (Next_eq _ _ _ Hn) in Hlast.
    injection Hlast as Hnext. eauto.
  - exists h'. split; [done|]. by apply walk_chain_in.
Qed.

Lemma links_walk_witness :
  let z := dissect.zeroByte dissect.zero in
  let h : gmap loc dissect.node :=
    <[4%positive := z]> (<[3%positive := z]>
      (<[2%positive := z]> (<[1%positive := z]> ∅))) in
  let l := [3%positive; 1%positive; 4%positive; 2%positive] in
  exists h',
    dissect.runs (links l) h = Some h' /\
    forall fuel, (List.length l <= fuel)%nat ->
                 dissect.walk fuel (first_of l) h' = Some l.
Proof.
  intros z h l. apply (links_walk h l).
  - compute_done.
  - intros a Ha.
    repeat (apply elem_of_cons in Ha as [->|Ha]; [by eexists|]).
    by apply elem_of_nil in Ha.
  - intros z' [= <-]. reflexivity.
Defined.

(** X12. [SetNext] checks nothing: a node can be made its own successor.
    The call returns, [Next] then answers the node itself, and the walk
    along [Next] does not end within any number of iterations. *)
Theorem self_link_never_ends (h : gmap loc dissect.node) d :
  allocated h d ->
  exists h',
    dissect.SetNext d d h = dissect.Ok tt h' /\
    dissect.Next d h' = dissect.Ok d h' /\
    forall fuel, dissect.walk fuel d h' = None.
Proof.
  intros (p & o & -> & Hp).
  exists (<[p := linked o (Some p)]> h).
  assert (Hnext : dissect.Next (Some p) (<[p := linked o (Some p)]> h) =
                  dissect.Ok (Some p) (<[p := linked o (Some p)]> h)).
  { rewrite (Next_eq _ _ (linked o (Some p))) by apply lookup_insert_eq.
    by rewrite linked_next. }
  split; [by apply SetNext_eq|]. split; [done|].
  induction fuel as [|fuel IH]; [done|].
  simpl. rewrite Hnext. by rewrite IH.
Qed.

Lemma self_link_never_ends_witness :
  let h : gmap loc dissect.node := {[ 1%positive := dissect.zeroByte dissect.zero ]} in
  exists h',
    dissect.SetNext (Some 1%positive) (Some 1%positive) h = dissect.Ok tt h' /\
    dissect.Next (Some 1%positive) h' = dissect.Ok (Some 1%positive) h' /\
    forall fuel, dissect.walk fuel (Some 1%positive) h' = None.
Proof.
  intros h. apply (self_link_never_ends h (Some 1%positive)).
  exists 1%positive, (dissect.zeroByte dissect.zero). split; reflexivity.
Defined.


(** ** What a sequence of calls does to one node *)

Lemma run_at c (h h1 : gmap loc dissect.node) p n :
  dissect.run c h = Some h1 ->
  h !! p = Some n ->
  h1 !! p = Some (effect_on p c n).
Proof.
  intros Hrun Hp.
  assert (Hfresh : fresh (dom h) <> p).
  { intros <-. by rewrite fresh_unused in Hp. }
  destruct c as [s|b|d s off|d|d|d|d|d|d|d m]; simpl in *.
  - rewrite newDelimiter_eq in Hrun. simpl in Hrun. injection Hrun as <-.
    by rewrite lookup_insert_ne.
  - injection Hrun as <-. by rewrite lookup_insert_ne.
  - destruct (dissect.IndexOf d s off h) eqn:Hc; [|done].
    injection Hrun as <-. by rewrite (IndexOf_heap _ _ _ _ _ _ Hc).
  - destruct (dissect.Len d h) eqn:Hc; [|done].
    injection Hrun as <-. by rewrite (Len_heap _ _ _ _ Hc).
  - destruct (dissect.String d h) eqn:Hc; [|done].
    injection Hrun as <-. by rewrite (String_heap _ _ _ _ Hc).
  - destruct (dissect.Delimiter d h) eqn:Hc; [|done].
    injection Hrun as <-. by rewrite (Delimiter_heap _ _ _ _ Hc).
  - destruct (dissect.IsGreedy d h) eqn:Hc; [|done].
    injection Hrun as <-. by rewrite (IsGreedy_heap _ _ _ _ Hc).
  - destruct (dissect.MarkGreedy d h) eqn:Hc; [|done].
    injection Hrun as <-.
    destruct (MarkGreedy_allocated _ _ _ _ Hc) as (q & o & -> & Hq).
    rewrite (MarkGreedy_eq _ _ _ Hq) in Hc. injection Hc as _ <-.
    destruct (decide (q = p)) as [->|Hne].
    + rewrite lookup_insert_eq. congruence.
    + by rewrite lookup_insert_ne.
  - destruct (dissect.Next d h) eqn:Hc; [|done].
    injection Hrun as <-. by rewrite (Next_heap _ _ _ _ Hc).
  - destruct (dissect.SetNext d m h) eqn:Hc; [|done].
    injection Hrun as <-.
    destruct (SetNext_allocated _ _ _ _ _ Hc) as (q & o & -> & Hq).
    rewrite (SetNext_eq _ _ _ m Hq) in Hc. injection Hc as _ <-.
    destruct (decide (q = p)) as [->|Hne].
    + rewrite lookup_insert_eq. congruence.
    + by rewrite lookup_insert_ne.
Qed.

Lemma effect_on_no_write p c n : writes_to p c = false -> effect_on p c n = n.
Proof.
  destruct c as [| | | | | | |[q|]| |[q|] m]; simpl; try done;
    intros Hw; apply bool_decide_eq_false in Hw; by destruct (decide (q = p)).
Qed.

(** X13. A node changes only through [MarkGreedy] or [SetNext] called on
    it: after any sequence of calls that holds neither, be they lookups on
    this node, calls on other nodes or constructions, every field of the
    node is as before. *)
Theorem untouched_without_writes (h h' : gmap loc dissect.node) p n cs :
  h !! p = Some n ->
  Forall (fun c => writes_to p c = false) cs ->
  dissect.runs cs h = Some h' ->
  h' !! p = Some n.
Proof.
  intros Hp Hcs. revert h Hp.
  induction Hcs as [|c cs Hc Hcs IH]; intros h Hp Hruns; simpl in Hruns.
  - by injection Hruns as <-.
  - destruct (dissect.run c h) as [h1|] eqn:Hrun; [|done].
    apply (IH h1); [|done].
    rewrite (run_at _ _ _ _ _ Hrun Hp). by rewrite effect_on_no_write.
Qed.

Lemma untouched_without_writes_witness :
  let m := dissect.multiByte
             {| dissect.needle := ", "; dissect.length := 0;
                dissect.greedy := false; dissect.next := None |} in
  let z := dissect.zeroByte dissect.zero in
  let h : gmap loc dissect.node := <[2%positive := z]> (<[1%positive := m]> ∅) in
  let h' : gmap loc dissect.node :=
    <[3%positive := z]>
      (<[2%positive := linked (marked z) (Some 1%positive)]>
         (<[2%positive := marked z]> h)) in
  h' !! 1%positive = Some m.
Proof.
  intros m z h h'.
  apply (untouched_without_writes h h' 1%positive m
           [dissect.CallIndexOf (Some 1%positive) "a, b" 0;
            dissect.CallMarkGreedy (Some 2%positive);
            dissect.CallSetNext (Some 2%positive) (Some 1%positive);
            dissect.NewDelimiter ""]).
  - reflexivity.
  - repeat constructor.
  - reflexivity.
Defined.

(** X14. No method allocates or frees a node: the eight methods leave the
    set of addresses in use as it is. A construction (the factory or a
    struct literal) adds exactly one address that was not in use. *)
Theorem calls_keep_nodes c (h h' : gmap loc dissect.node) :
  dissect.run c h = Some h' ->
  if constructs c
  then exists p, (p ∉ dom h) /\ dom h' = {[p]} ∪ dom h
  else dom h' = dom h.
Proof.
  intros Hrun.
  destruct c as [s|b|d s off|d|d|d|d|d|d|d m]; simpl in *.
  - rewrite newDelimiter_eq in Hrun. simpl in Hrun. injection Hrun as <-.
    exists (fresh (dom h)). split; [apply is_fresh|apply dom_insert_L].
  - injection Hrun as <-.
    exists (fresh (dom h)). split; [apply is_fresh|apply dom_insert_L].
  - destruct (dissect.IndexOf d s off h) eqn:Hm; [|done].
    injection Hrun as <-. by rewrite (IndexOf_heap _ _ _ _ _ _ Hm).
  - destruct (dissect.Len d h) eqn:Hm; [|done].
    injection Hrun as <-. by rewrite (Len_heap _ _ _ _ Hm).
  - destruct (dissect.String d h) eqn:Hm; [|done].
    injection Hrun as <-. by rewrite (String_heap _ _ _ _ Hm).
  - destruct (dissect.Delimiter d h) eqn:Hm; [|done].
    injection Hrun as <-. by rewrite (Delimiter_heap _ _ _ _ Hm).
  - destruct (dissect.IsGreedy d h) eqn:Hm; [|done].
    injection Hrun as <-. by rewrite (IsGreedy_heap _ _ _ _ Hm).
  - destruct (dissect.MarkGreedy d h) eqn:Hm; [|done].
    injection Hrun as <-.
    destruct (MarkGreedy_allocated _ _ _ _ Hm) as (q & o & -> & Hq).
    rewrite (MarkGreedy_eq _ _ _ Hq) in Hm. injection Hm as _ <-.
    rewrite dom_insert_L. apply elem_of_dom_2 in Hq.
    apply subseteq_union_1_L, singleton_subseteq_l, Hq.
  - destruct (dissect.Next d h) eqn:Hm; [|done].
    injection Hrun as <-. by rewrite (Next_heap _ _ _ _ Hm).
  - destruct (dissect.SetNext d m h) eqn:Hm; [|done].
    injection Hrun as <-.
    destruct (SetNext_allocated _ _ _ _ _ Hm) as (q & o & -> & Hq).
    rewrite (SetNext_eq _ _ _ m Hq) in Hm. injection Hm as _ <-.
    rewrite dom_insert_L. apply elem_of_dom_2 in Hq.
    apply subseteq_union_1_L, singleton_subseteq_l, Hq.
Qed.

Lemma calls_keep_nodes_witness :
  let m := dissect.multiByte
             {| dissect.needle := ", "; dissect.length := 0;
                dissect.greedy := false; dissect.next := None |} in
  let h : gmap loc dissect.node := <[1%positive := m]> ∅ in
  dom (<[1%positive := linked m (Some 1%positive)]> h) = dom h.
Proof.
  intros m h.
  apply (calls_keep_nodes
           (dissect.CallSetNext (Some 1%positive) (Some 1%positive)) h
           (<[1%positive := linked m (Some 1%positive)]> h)).
  reflexivity.
Defined.

Lemma effect_on_greedy p c n :
  dissect.greedy (dissect.embedded (effect_on p c n)) = true <->
  dissect.greedy (dissect.embedded n) = true \/
  c = dissect.CallMarkGreedy (Some p).
Proof.
  destruct c as [| | | | | | |[q|]| |[q|] m]; simpl;
    try (split; [by left|by intros [?|?]]).
  - destruct (decide (q = p)) as [->|Hne].
    + rewrite marked_greedy. split; [by right|done].
    + split; [by left|]. intros [?|?]; [done|congruence].
  - destruct (decide (q = p)) as [->|Hne].
    + destruct (linked_frame n m) as (_ & _ & _ & ->).
      split; [by left|by intros [?|?]].
    + split; [by left|by intros [?|?]].
Qed.

(** X15. The greedy flag is set by [MarkGreedy] on the node and by nothing
    else: after a sequence of calls that all return, [IsGreedy] answers
    true exactly when the node was greedy before or the sequence holds a
    [MarkGreedy] on this very node. *)
Theorem IsGreedy_iff_marked (h h' : gmap loc dissect.node) p n cs :
  h !! p = Some n ->
  dissect.runs cs h = Some h' ->
  dissect.IsGreedy (Some p) h' = dissect.Ok true h' <->
  dissect.greedy (dissect.embedded n) = true \/
  dissect.CallMarkGreedy (Some p) ∈ cs.
Proof.
  revert h n. induction cs as [|c cs IH]; intros h n Hp Hruns; simpl in Hruns.
  - injection Hruns as <-. rewrite (IsGreedy_eq _ _ _ Hp). split.
    + intros [= ->]. by left.
    + intros [->|Hin]; [done|]. by apply elem_of_nil in Hin.
  - destruct (dissect.run c h) as [h1|] eqn:Hrun; [|done].
    rewrite (IH h1 _ (run_at _ _ _ _ _ Hrun Hp) Hruns).
    rewrite effect_on_greedy, elem_of_cons. split.
    + intros [[Hg| ->]|Hin]; [by left|right; by left|right; by right].
    + intros [Hg|[<-|Hin]]; [left; by left|left; by right|by right].
Qed.

Lemma IsGreedy_iff_marked_witness :
  let z := dissect.zeroByte dissect.zero in
  let h : gmap loc dissect.node := <[2%positive := z]> (<[1%positive := z]> ∅) in
  let h' : gmap loc dissect.node :=
    <[1%positive := linked z (Some 2%positive)]> (<[2%positive := marked z]> h) in
  dissect.IsGreedy (Some 1%positive) h' = dissect.Ok true h' <->
  dissect.greedy (dissect.embedded z) = true \/
  dissect.CallMarkGreedy (Some 1%positive) ∈
    [dissect.CallMarkGreedy (Some 2%positive);
     dissect.CallSetNext (Some 1%positive) (Some 2%positive)].
Proof.
  intros z h h'.
  apply (IsGreedy_iff_marked h h' 1%positive z
           [dissect.CallMarkGreedy (Some 2%positive);
            dissect.CallSetNext (Some 1%positive) (Some 2%positive)]).
  - reflexivity.
  - reflexivity.
Defined.

Lemma effect_on_next p c n :
  sets_next p c = false ->
  dissect.next (dissect.embedded (effect_on p c n)) =
  dissect.next (dissect.embedded n).
Proof.
  destruct c as [| | | | | | |[q|]| |[q|] m]; simpl; try done.
  - intros _. destruct (decide (q = p)); [|done].
    by destruct (marked_frame n) as (_ & _ & _ & ->).
  - intros Hw. apply bool_decide_eq_false in Hw. by destruct (decide (q = p)).
Qed.

Lemma next_without_SetNext cs : forall (h h' : gmap loc dissect.node) p n,
  h !! p = Some n ->
  Forall (fun c => sets_next p c = false) cs ->
  dissect.runs cs h = Some h' ->
  dissect.Next (Some p) h' = dissect.Ok (dissect.next (dissect.embedded n)) h'.
Proof.
  induction cs as [|c cs IH]; intros h h' p n Hp Hcs Hruns; simpl in Hruns.
  - injection Hruns as <-. by apply Next_eq.
  - destruct (dissect.run c h) as [h1|] eqn:Hrun; [|done].
    apply Forall_cons in Hcs as [Hc Hcs].
    rewrite (IH h1 h' p _ (run_at _ _ _ _ _ Hrun Hp) Hcs Hruns).
    by rewrite effect_on_next.
Qed.

(** X16. [Next] answers what the last [SetNext] on the node was given: once
    [SetNext(m)] has returned, [Next] is [m] after any further calls among
    which there is no [SetNext] on this node, whatever they do to the flag
    of this node or to other nodes. *)
Theorem Next_is_last_SetNext (h h1 h' : gmap loc dissect.node) p m cs :
  dissect.SetNext (Some p) m h = dissect.Ok tt h1 ->
  Forall (fun c => sets_next p c = false) cs ->
  dissect.runs cs h1 = Some h' ->
  dissect.Next (Some p) h' = dissect.Ok m h'.
Proof.
  intros Hset Hcs Hruns.
  destruct (SetNext_allocated _ _ _ _ _ Hset) as (q & o & [= <-] & Hp).
  rewrite (SetNext_eq _ _ _ m Hp) in Hset. injection Hset as <-.
  rewrite (next_without_SetNext cs _ h' p (linked o m)
             (lookup_insert_eq _ _ _) Hcs Hruns).
  by rewrite linked_next.
Qed.

Lemma Next_is_last_SetNext_witness :
  let z := dissect.zeroByte dissect.zero in
  let h : gmap loc dissect.node := <[2%positive := z]> (<[1%positive := z]> ∅) in
  let h1 : gmap loc dissect.node := <[1%positive := linked z (Some 2%positive)]> h in
  let h' : gmap loc dissect.node :=
    <[2%positive := linked z (Some 1%positive)]>
      (<[1%positive := marked (linked z (Some 2%positive))]> h1) in
  dissect.Next (Some 1%positive) h' = dissect.Ok (Some 2%positive) h'.
Proof.
  intros z h h1 h'.
  apply (Next_is_last_SetNext h h1 h' 1%positive (Some 2%positive)
           [dissect.CallMarkGreedy (Some 1%positive);
            dissect.CallSetNext (Some 2%positive) (Some 1%positive)]).
  - reflexivity.
  - repeat constructor.
  - reflexivity.
Defined.

(** ** The empty needle *)

(** X17. A [multiByte] with the empty needle, which only a struct literal
    can build, answers like the anchor that the factory builds for the
    empty literal: [IndexOf] returns the offset, at every offset in range,
    and [Len] returns 0. *)
Theorem multiByte_empty_needle (h : gmap loc dissect.node) p b H o :
  h !! p = Some (dissect.multiByte b) ->
  dissect.needle b = ""%string ->
  go_string H ->
  valid_offset H o ->
  dissect.IndexOf (Some p) H o h = dissect.Ok o h /\
  dissect.Len (Some p) h = dissect.Ok 0 h.
Proof.
  intros Hp Hempty HH Ho. split.
  - rewrite (IndexOf_multi _ _ _ H o Hp eq_refl). simpl.
    assert ((o <? 0) || (len H <? o) = false) as ->.
    { unfold valid_offset in Ho. apply orb_false_iff. lia. }
    rewrite Hempty. unfold strings.Index.
    assert (strings.index_from (drop_bytes (Z.to_nat o) H) "" 0 = 0) as ->
      by (by destruct (drop_bytes _ H)).
    simpl. rewrite add_exact; [done|]. simpl. eauto using offset_in_range.
  - rewrite (Len_eq _ _ _ Hp). by rewrite Hempty.
Qed.

Lemma multiByte_empty_needle_witness :
  let h : gmap loc dissect.node :=
    {[ 1%positive := dissect.multiByte dissect.zero ]} in
  dissect.IndexOf (Some 1%positive) "abc" 3 h = dissect.Ok 3 h /\
  dissect.Len (Some 1%positive) h = dissect.Ok 0 h.
Proof.
  intros h.
  apply (multiByte_empty_needle h 1%positive dissect.zero "abc" 3).
  - reflexivity.
  - reflexivity.
  - unfold go_string. vm_compute. discriminate.
  - unfold valid_offset. vm_compute. split; discriminate.
Defined.
